(** * The pipeline orchestrator of [okmall/orchestrator.py]

    A shallow embedding of class [Orchestrator]: the batch registry
    ([get_or_create_batch], [finish_batch]), the stage state store
    ([get_stage_status], [update_stage_status]), the worker invocation layer
    ([execute_worker]), the entity pipeline runner ([process_brand_pipeline])
    and the scheduler ([run]), followed by an interleaving semantics of the
    thread pool in which the per-stage semaphores are explicit.

    Conventions.
    - The two MySQL tables are part of an explicit [World] that every
      operation threads through.  [pipeline_control] is a finite map from its
      unique key to the remaining columns; [pipeline_batches] is a list of
      rows in storage order.
    - [NOW()] and [datetime.now()] read a logical clock that advances by one
      at every recorded action.
    - What the environment decides (the outcome of a subprocess, the wall
      clock, the interpreter path, the upper-casing of the interpreter and of
      the database server) is a [Variable] of the section.
    - A call of the sequential functions is a call that returns.  What can
      keep a task from returning is in the pool: a unit that never exits
      leaves its task at the control point where it waits, and an exception
      that nothing catches ends the task ([xstep]).
    - Console output ([self.log], the relayed worker output) is not modelled;
      the [trace] of a world records instead the observable actions (lock
      operations, store accesses, subprocess launches) in the order they
      happen. *)

From stdpp Require Import gmap strings list fin_maps.
From Stdlib Require Import Ascii ZArith Lia ZifyNat.

(** ** Python values *)

(** Upper-casing is done by the interpreter ([str.upper], Unicode-aware) and
    by the database server ([UPPER], under the collation of the column).
    Neither is code of the repository: both are parameters of what follows,
    [upper] and [UPPER].  [ascii_upper] is what they do on ASCII text; the
    sample runs, whose names are ASCII, use it for both. *)
Definition upper_ascii (c : ascii) : ascii :=
  let n := nat_of_ascii c in
  if (97 <=? n)%nat && (n <=? 122)%nat then ascii_of_nat (n - 32) else c.

Fixpoint ascii_upper (s : string) : string :=
  match s with
  | EmptyString => EmptyString
  | String c r => String (upper_ascii c) (ascii_upper r)
  end.

(** Truthiness of an optional string: [None] and the empty string are falsy. *)
Definition truthy (o : option string) : option string :=
  match o with
  | Some s => if decide (s = "") then None else Some s
  | None => None
  end.

(** Diagnostics are sliced by character ([msg[:500]]), so a message is kept
    as its sequence of code points. *)
Definition pystr := list N.

Definition py (s : string) : pystr := N_of_ascii <$> String.list_ascii_of_string s.

(** [list.index]: position of the first occurrence. *)
Fixpoint index (x : string) (l : list string) : option nat :=
  match l with
  | [] => None
  | y :: r => if decide (x = y) then Some 0 else S <$> index x r
  end.

Inductive PyError :=
| ValueError (arg : string)
| IndexError.

(** ** The orchestrator object *)

Definition ALL_STAGES : list string :=
  ["COLLECT"; "CONVERT"; "IMAGE"; "PRICE"; "REGISTER"].

Record Orchestrator := mkOrchestrator {
  run_mode : string;
  mall_filter : option string;
  brand_filter : option string;
  exclude_brands : list string;
  stages : list string;
  final_stage : string
}.

Section Construction.

(** [str.upper]. *)
Variable upper : string → string.

(** [Orchestrator.__init__].  An omitted keyword argument is [None]. *)
Definition init (mode : string) (mall brand : option string)
    (exclude : option (list string)) (until_stage : option string)
  : PyError + Orchestrator :=
  let excl := upper <$> default [] exclude in
  let stages_or_err :=
    match truthy until_stage with
    | Some u =>
        let until_stage_upper := upper u in
        match index until_stage_upper ALL_STAGES with
        | None => inl (ValueError u)
        | Some i => inr (take (i + 1) ALL_STAGES)
        end
    | None => inr ALL_STAGES
    end in
  match stages_or_err with
  | inl e => inl e
  | inr sts =>
      match last sts with
      | None => inl IndexError
      | Some fin => inr (mkOrchestrator mode mall brand excl sts fin)
      end
  end.

End Construction.

(** [self.stage_locks]: one [Semaphore(1)] per active stage; the map holds the
    counter of each semaphore. *)
Definition stage_locks (self : Orchestrator) : gmap string nat :=
  list_to_map ((λ stage, (stage, 1)) <$> stages self).

(** ** The persisted state *)

(** A column the statement did not write holds the schema's default. *)
Inductive Col (A : Type) :=
| ColDefault
| ColVal (a : A).
Arguments ColDefault {A}.
Arguments ColVal {A} a.

(** [pipeline_control], keyed by [(batch_id, mall_name, brand_name, stage)]. *)
Abbreviation Key := (string * string * string * string)%type.

Record ControlRow := mkControlRow {
  c_run_mode : string;
  c_status : string;
  c_error_msg : option pystr;
  c_started_at : nat;
  c_updated_at : Col nat
}.

Record BatchRow := mkBatchRow {
  b_batch_id : string;
  b_run_mode : string;
  b_status : string;
  b_total_brands : Col nat;
  b_success_brands : Col nat;
  b_end_time : Col nat
}.

(** A row of the catalogue [mall_brands]; [brand_info] is what the query
    selects from it.  The mall and the catalogue name are the entity's key in
    the stage records and are strings here; a row whose name is NULL does not
    get past its first stage, whose log line raises before the unit is
    launched: that end of a task is the exception step of the pool. *)
Record BrandInfo := mkBrandInfo {
  mall_name : string;
  mall_brand_name_en : string;
  buyma_brand_name : option string
}.

Record CatalogRow := mkCatalogRow {
  cat_info : BrandInfo;
  is_active : Z
}.

(** Observable actions, each tagged with the entity and stage it belongs to. *)
Inductive Event :=
| EvAcquire (stage : string)
| EvRelease (stage : string)
| EvGetStatus (mall brand stage : string) (result : string)
| EvSetStatus (mall brand stage status : string) (msg : option pystr)
| EvExec (mall brand stage : string) (cmd : list string)
| EvFindBatch (mode : string) (result : option string)
| EvInsertBatch (batch mode : string)
| EvListBrands (cnt : nat)
| EvSetTotal (batch : string) (cnt : nat)
| EvFinishBatch (batch stage : string) (cnt : nat).

Record World := mkWorld {
  pipeline_control : gmap Key ControlRow;
  pipeline_batches : list BatchRow;
  mall_brands : list CatalogRow;
  clock : nat;
  trace : list Event
}.

(** One observable action: it is recorded and time passes. *)
Definition emit (e : Event) (w : World) : World :=
  mkWorld (pipeline_control w) (pipeline_batches w) (mall_brands w)
          (S (clock w)) (trace w ++ [e]).

Definition set_control (t : gmap Key ControlRow) (w : World) : World :=
  mkWorld t (pipeline_batches w) (mall_brands w) (clock w) (trace w).

Definition set_batches (b : list BatchRow) (w : World) : World :=
  mkWorld (pipeline_control w) b (mall_brands w) (clock w) (trace w).

(** ** Stage state store *)

(** The status a key stands at: that of its row, ['PENDING'] without a row. *)
Definition stored_status (t : gmap Key ControlRow) (k : Key) : string :=
  match t !! k with
  | Some row => c_status row
  | None => "PENDING"
  end.

(** [get_stage_status]. *)
Definition get_stage_status (batch_id mall brand stage : string) (w : World)
  : string * World :=
  let status := stored_status (pipeline_control w) (batch_id, mall, brand, stage) in
  (status, emit (EvGetStatus mall brand stage status) w).

(** [update_stage_status]: [INSERT ... ON DUPLICATE KEY UPDATE].  A new row
    takes every listed column, with [started_at = NOW()]; an existing row has
    [status], [error_msg] and [updated_at] overwritten. *)
Definition upsert (mode status : string) (error_msg : option pystr) (now : nat)
    (old : option ControlRow) : ControlRow :=
  match old with
  | None => mkControlRow mode status error_msg now ColDefault
  | Some row =>
      mkControlRow (c_run_mode row) status error_msg (c_started_at row) (ColVal now)
  end.

Definition update_stage_status (self : Orchestrator)
    (batch_id mall brand stage status : string) (error_msg : option pystr)
    (w : World) : World :=
  let k := (batch_id, mall, brand, stage) in
  let row := upsert (run_mode self) status error_msg (clock w)
                    (pipeline_control w !! k) in
  emit (EvSetStatus mall brand stage status error_msg)
       (set_control (<[k := row]> (pipeline_control w)) w).

(** ** Worker invocation layer *)

(** What [subprocess.Popen] followed by [process.wait()] can come to when it
    comes to an end: the unit ran and exited with a return code, or an
    exception was raised while launching it or reading its output.  There is
    no timeout: a unit that never exits gives no outcome. *)
Inductive ProcOutcome :=
| Exited (returncode : Z)
| Raised (message : pystr).

(** The text before the script name in the diagnostic of a non-zero exit,
    as code points (nine Hangul syllables, two spaces and a colon). *)
Definition script_failed_prefix : pystr :=
  [49828; 53356; 47549; 53944; 32; 49892; 54665; 32; 49892; 54056; 58; 32]%N.

(** The [WHERE] clause of the lookup in [get_or_create_batch]. *)
Definition resumable (mode : string) (row : BatchRow) : bool :=
  bool_decide (b_status row = "RUNNING") && bool_decide (b_run_mode row = mode).

Record DateTime := mkDateTime {
  year : nat; month : nat; day : nat; hour : nat; minute : nat; second : nat
}.

Definition digit (n : nat) : ascii := ascii_of_nat (48 + n mod 10).

Definition pad2 (n : nat) : string :=
  String (digit (n / 10)) (String (digit n) EmptyString).

Definition pad4 (n : nat) : string :=
  String (digit (n / 1000)) (String (digit (n / 100)) (pad2 n)).

(** [strftime("%Y%m%d_%H%M%S")]. *)
Definition strftime (d : DateTime) : string :=
  pad4 (year d) +:+ pad2 (month d) +:+ pad2 (day d) +:+ "_"
  +:+ pad2 (hour d) +:+ pad2 (minute d) +:+ pad2 (second d).

Section Environment.

(** [sys.executable]. *)
Variable sys_executable : string.

(** The outcome of the subprocess launched at a given time. *)
Variable spawn : nat → list string → ProcOutcome.

(** The command list [execute_worker] builds for a stage. *)
Definition commands_for (stage target_brand_name : string) : list (list string) :=
  if decide (stage = "COLLECT") then
    [[sys_executable; "okmall_all_brands_collector.py"; "--brand"; target_brand_name]]
  else if decide (stage = "CONVERT") then
    [[sys_executable; "raw_to_ace_converter.py"; "--brand"; target_brand_name]]
  else if decide (stage = "IMAGE") then
    [[sys_executable; "image_collector_parallel.py"; "--brand"; target_brand_name];
     [sys_executable; "r2_image_uploader.py"; "--brand"; target_brand_name]]
  else if decide (stage = "PRICE") then
    [[sys_executable; "buyma_lowest_price_collector.py"; "--brand"; target_brand_name]]
  else if decide (stage = "REGISTER") then
    [[sys_executable; "buyma_product_register.py"; "--brand"; target_brand_name]]
  else [].

(** One turn of [for cmd in commands]: launch, wait, and reduce the outcome
    to [None] (exit status 0, go on) or to the diagnostic of the failure. *)
Definition run_command (mall brand stage : string) (cmd : list string)
    (w : World) : option pystr * World :=
  let script_name := nth 1 cmd "" in
  let w' := emit (EvExec mall brand stage cmd) w in
  match spawn (clock w) cmd with
  | Exited rc =>
      if decide (rc ≠ 0%Z)
      then (Some (take 500 (script_failed_prefix ++ py script_name)), w')
      else (None, w')
  | Raised msg => (Some (take 500 msg), w')
  end.

(** The loop over the commands, with the two writes that end it. *)
Fixpoint run_commands (self : Orchestrator) (batch_id mall brand stage : string)
    (commands : list (list string)) (w : World) : bool * World :=
  match commands with
  | [] => (true, update_stage_status self batch_id mall brand stage "DONE" None w)
  | cmd :: rest =>
      match run_command mall brand stage cmd w with
      | (Some error_msg, w') =>
          (false, update_stage_status self batch_id mall brand stage "ERROR"
                    (Some error_msg) w')
      | (None, w') => run_commands self batch_id mall brand stage rest w'
      end
  end.

(** [execute_worker]. *)
Definition execute_worker (self : Orchestrator)
    (batch_id mall brand_id_name stage target_brand_name : string) (w : World)
  : bool * World :=
  let w1 := update_stage_status self batch_id mall brand_id_name stage "RUNNING" None w in
  run_commands self batch_id mall brand_id_name stage
               (commands_for stage target_brand_name) w1.

(** ** Entity pipeline runner *)

(** [brand_info['buyma_brand_name'] or mall_brand]. *)
Definition buyma_brand (brand_info : BrandInfo) : string :=
  default (mall_brand_name_en brand_info) (truthy (buyma_brand_name brand_info)).

Definition target_brand_name (brand_info : BrandInfo) (stage : string) : string :=
  if decide (stage ∈ ["COLLECT"; "CONVERT"])
  then mall_brand_name_en brand_info
  else buyma_brand brand_info.

Definition partial_skip (self : Orchestrator) (stage : string) : bool :=
  bool_decide (run_mode self = "PARTIAL") && bool_decide (stage ∈ ["CONVERT"; "IMAGE"]).

(** What the body of the [with self.stage_locks[stage]] block does once the
    lock is held; the result is [true] for [continue] and for a successful
    worker, [false] for [return False]. *)
Definition stage_body (self : Orchestrator) (batch_id : string)
    (brand_info : BrandInfo) (stage : string) (w : World) : bool * World :=
  let mall := mall_name brand_info in
  let mall_brand := mall_brand_name_en brand_info in
  let '(status, w1) := get_stage_status batch_id mall mall_brand stage w in
  if decide (status = "DONE") then (true, w1)
  else if partial_skip self stage then
    (true, update_stage_status self batch_id mall mall_brand stage "DONE"
             (Some (py "Skipped in PARTIAL mode")) w1)
  else
    execute_worker self batch_id mall mall_brand stage
                   (target_brand_name brand_info stage) w1.

(** One turn of [for stage in self.stages]: the semaphore is taken on entry
    and given back however the block is left. *)
Definition process_stage (self : Orchestrator) (batch_id : string)
    (brand_info : BrandInfo) (stage : string) (w : World) : bool * World :=
  let '(ok, w') := stage_body self batch_id brand_info stage (emit (EvAcquire stage) w) in
  (ok, emit (EvRelease stage) w').

Fixpoint pipeline_loop (self : Orchestrator) (batch_id : string)
    (brand_info : BrandInfo) (todo : list string) (w : World) : bool * World :=
  match todo with
  | [] => (true, w)
  | stage :: rest =>
      match process_stage self batch_id brand_info stage w with
      | (true, w') => pipeline_loop self batch_id brand_info rest w'
      | (false, w') => (false, w')
      end
  end.

(** [process_brand_pipeline], run by one thread with no other thread
    holding a semaphore it needs. *)
Definition process_brand_pipeline (self : Orchestrator) (batch_id : string)
    (brand_info : BrandInfo) (w : World) : bool * World :=
  pipeline_loop self batch_id brand_info (stages self) w.


(** ** Batch registry *)

(** [datetime.now()] at a given time. *)
Variable now : nat → DateTime.

Definition get_or_create_batch (self : Orchestrator) (w : World) : string * World :=
  match List.find (resumable (run_mode self)) (pipeline_batches w) with
  | Some result =>
      (b_batch_id result, emit (EvFindBatch (run_mode self) (Some (b_batch_id result))) w)
  | None =>
      let w1 := emit (EvFindBatch (run_mode self) None) w in
      let batch_id := strftime (now (clock w1)) in
      let row := mkBatchRow batch_id (run_mode self) "RUNNING"
                            ColDefault ColDefault ColDefault in
      (batch_id,
       emit (EvInsertBatch batch_id (run_mode self))
            (set_batches (pipeline_batches w1 ++ [row]) w1))
  end.

(** [COUNT(DISTINCT brand_name)] over the rows of a batch that are ['DONE']
    at a stage: the size of the set of their brand names. *)
Definition done_brands (t : gmap Key ControlRow) (batch_id stage : string) : gset string :=
  list_to_set
    (omap (λ kr : Key * ControlRow,
             let '(b, _, brand, st, row) := kr in
             if decide (b = batch_id ∧ st = stage ∧ c_status row = "DONE")
             then Some brand else None)
          (map_to_list t)).

Definition finish_row (batch_id : string) (cnt end_time : nat) (row : BatchRow) : BatchRow :=
  if decide (b_batch_id row = batch_id)
  then mkBatchRow (b_batch_id row) (b_run_mode row) "COMPLETED"
                  (b_total_brands row) (ColVal cnt) (ColVal end_time)
  else row.

Definition finish_batch (self : Orchestrator) (batch_id : string) (w : World) : World :=
  let success_count := size (done_brands (pipeline_control w) batch_id (final_stage self)) in
  emit (EvFinishBatch batch_id (final_stage self) success_count)
       (set_batches (finish_row batch_id success_count (clock w) <$> pipeline_batches w) w).

(** ** Scheduler *)

(** [str.upper], and [UPPER] of the database server. *)
Variable upper : string → string.
Variable UPPER : string → string.

(** The [WHERE] clause of [get_target_brands]: the column goes through
    [UPPER], the brand filter through [str.upper]; the exclusion list went
    through [str.upper] in [__init__]. *)
Definition is_target (self : Orchestrator) (row : CatalogRow) : bool :=
  let name := mall_brand_name_en (cat_info row) in
  bool_decide (is_active row = 1%Z)
  && match truthy (mall_filter self) with
     | Some m => bool_decide (mall_name (cat_info row) = m)
     | None => true
     end
  && match truthy (brand_filter self) with
     | Some b => bool_decide (UPPER name = upper b)
     | None => true
     end
  && match exclude_brands self with
     | [] => true
     | excl => negb (bool_decide (UPPER name ∈ excl))
     end.

Definition get_target_brands (self : Orchestrator) (w : World) : list BrandInfo * World :=
  let brands := cat_info <$> List.filter (is_target self) (mall_brands w) in
  (brands, emit (EvListBrands (length brands)) w).

Definition total_row (batch_id : string) (cnt : nat) (row : BatchRow) : BatchRow :=
  if decide (b_batch_id row = batch_id)
  then mkBatchRow (b_batch_id row) (b_run_mode row) (b_status row)
                  (ColVal cnt) (b_success_brands row) (b_end_time row)
  else row.

Definition set_total_brands (batch_id : string) (cnt : nat) (w : World) : World :=
  emit (EvSetTotal batch_id cnt)
       (set_batches (total_row batch_id cnt <$> pipeline_batches w) w).

End Environment.

(** ** The thread pool, step by step

    [run] hands every brand to a [ThreadPoolExecutor]; the threads interleave
    at the granularity of the recorded actions.  The control point of a
    thread inside [process_brand_pipeline] is a [Pc]; from [Entered] to
    [Leaving] the thread is inside [with self.stage_locks[stage]]. *)

Inductive Pc :=
| Queued
| AtLoop (todo : list string)
| Entered (stage : string) (rest : list string)
| SkipWrite (stage : string) (rest : list string)
| MarkRunning (stage : string) (rest : list string)
| Cmds (stage : string) (commands : list (list string)) (rest : list string)
| FailWrite (stage : string) (error_msg : pystr) (rest : list string)
| Leaving (stage : string) (ok : bool) (rest : list string)
| Finished (result : bool).

Record Pool := mkPool {
  p_world : World;
  p_sems : gmap string nat;
  p_pcs : list Pc
}.

(** The stage whose semaphore a thread holds at a control point. *)
Definition held (pc : Pc) : option string :=
  match pc with
  | Entered s _ | SkipWrite s _ | MarkRunning s _ | Cmds s _ _
  | FailWrite s _ _ | Leaving s _ _ => Some s
  | Queued | AtLoop _ | Finished _ => None
  end.

Definition holds (s : string) (pc : Pc) : bool := bool_decide (held pc = Some s).

Definition weight (s : string) (pc : Pc) : nat := if holds s pc then 1 else 0.

(** Number of threads inside the block of stage [s]. *)
Definition holders (s : string) (pcs : list Pc) : nat := sum_list (weight s <$> pcs).

(** Counter of a semaphore; a stage without a semaphore counts as 0. *)
Definition sem_value (s : string) (sems : gmap string nat) : nat := default 0 (sems !! s).

(** Tasks a pool thread is working on. *)
Definition running (pc : Pc) : bool :=
  match pc with
  | Queued | Finished _ => false
  | _ => true
  end.

Definition active (pcs : list Pc) : nat := length (List.filter running pcs).

Definition is_queued (pc : Pc) : bool :=
  match pc with Queued => true | _ => false end.

(** A task can also be ended by an exception that nothing catches inside
    [process_brand_pipeline]: an error of a store access, or the [TypeError]
    of [' '.join(cmd)], outside the [try] of [execute_worker], when the
    target name is not a string.  The [with] block gives the semaphore back
    and [run] logs the exception it finds in the future (lines 167-168).
    [raises_at] names the control points whose next action can raise, with
    the stage whose block is left. *)
Definition raises_at (pc : Pc) : option string :=
  match pc with
  | Entered s _ | SkipWrite s _ | MarkRunning s _ | Cmds s _ _ | FailWrite s _ _ => Some s
  | Queued | AtLoop _ | Leaving _ _ _ | Finished _ => None
  end.

(** The pool together with the tasks that an exception has ended; the pool
    keeps such a task at a control point from which nothing moves. *)
Record XPool := mkXPool {
  x_pool : Pool;
  x_raised : gset nat
}.

Section Pool.

Variable sys_executable : string.
Variable spawn : nat → list string → ProcOutcome.
Variable self : Orchestrator.
Variable batch_id : string.

(** One action of the thread that runs [process_brand_pipeline brand_info];
    [None] when the thread cannot move: it has returned, or it waits for a
    semaphore whose counter is 0.  The action at [Cmds] is a unit from its
    launch to its exit: it happens when the unit exits. *)
Definition thread_step (brand_info : BrandInfo) (pc : Pc) (w : World)
    (sems : gmap string nat) : option (Pc * World * gmap string nat) :=
  let mall := mall_name brand_info in
  let mall_brand := mall_brand_name_en brand_info in
  match pc with
  | Queued => None
  | AtLoop [] => Some (Finished true, w, sems)
  | AtLoop (stage :: rest) =>
      match sems !! stage with
      | Some (S n) => Some (Entered stage rest, emit (EvAcquire stage) w, <[stage := n]> sems)
      | _ => None
      end
  | Entered stage rest =>
      let '(status, w1) := get_stage_status batch_id mall mall_brand stage w in
      if decide (status = "DONE") then Some (Leaving stage true rest, w1, sems)
      else if partial_skip self stage then Some (SkipWrite stage rest, w1, sems)
      else Some (MarkRunning stage rest, w1, sems)
  | SkipWrite stage rest =>
      Some (Leaving stage true rest,
            update_stage_status self batch_id mall mall_brand stage "DONE"
              (Some (py "Skipped in PARTIAL mode")) w,
            sems)
  | MarkRunning stage rest =>
      Some (Cmds stage (commands_for sys_executable stage
                          (target_brand_name brand_info stage)) rest,
            update_stage_status self batch_id mall mall_brand stage "RUNNING" None w,
            sems)
  | Cmds stage [] rest =>
      Some (Leaving stage true rest,
            update_stage_status self batch_id mall mall_brand stage "DONE" None w,
            sems)
  | Cmds stage (cmd :: cmds) rest =>
      match run_command spawn mall mall_brand stage cmd w with
      | (Some error_msg, w') => Some (FailWrite stage error_msg rest, w', sems)
      | (None, w') => Some (Cmds stage cmds rest, w', sems)
      end
  | FailWrite stage error_msg rest =>
      Some (Leaving stage false rest,
            update_stage_status self batch_id mall mall_brand stage "ERROR"
              (Some error_msg) w,
            sems)
  | Leaving stage ok rest =>
      Some (if ok then AtLoop rest else Finished false,
            emit (EvRelease stage) w,
            alter S stage sems)
  | Finished _ => None
  end.

Variable brands : list BrandInfo.
Variable max_workers : nat.

(** Task [i] moves.  A queued task is picked up, in submission order, when
    fewer than [max_workers] tasks are being worked on. *)
Definition pool_step (i : nat) (g : Pool) : option Pool :=
  match p_pcs g !! i, brands !! i with
  | Some Queued, Some _ =>
      if bool_decide (active (p_pcs g) < max_workers)
         && forallb (λ pc, negb (is_queued pc)) (take i (p_pcs g))
      then Some (mkPool (p_world g) (p_sems g) (<[i := AtLoop (stages self)]> (p_pcs g)))
      else None
  | Some pc, Some brand_info =>
      match thread_step brand_info pc (p_world g) (p_sems g) with
      | Some (pc', w', sems') => Some (mkPool w' sems' (<[i := pc']> (p_pcs g)))
      | None => None
      end
  | _, _ => None
  end.

Inductive step : Pool → Pool → Prop :=
| step_task (i : nat) (g g' : Pool) : pool_step i g = Some g' → step g g'.

(** The pool right after every brand has been submitted. *)
Definition pool_init (w : World) : Pool :=
  mkPool w (stage_locks self) (replicate (length brands) Queued).

Definition reachable (w : World) (g : Pool) : Prop := rtc step (pool_init w) g.

(** Running a schedule: the tasks move in the order the list names them; a
    task named while it cannot move leaves the pool as it is. *)
Fixpoint run_schedule (sched : list nat) (g : Pool) : Pool :=
  match sched with
  | [] => g
  | i :: rest => run_schedule rest (default g (pool_step i g))
  end.

Definition all_finished (g : Pool) : bool :=
  forallb (λ pc, match pc with Finished _ => true | _ => false end) (p_pcs g).

(** How many entries of a schedule name a task that can move. *)
Fixpoint count_moves (sched : list nat) (g : Pool) : nat :=
  match sched with
  | [] => 0
  | i :: rest =>
      match pool_step i g with
      | Some g' => S (count_moves rest g')
      | None => count_moves rest g
      end
  end.

(** The pool with exceptions: a task moves as before, or its next action
    raises, the semaphore it holds is given back and the task is over. *)
Inductive xstep : XPool → XPool → Prop :=
| xstep_task (i : nat) (g : XPool) (p' : Pool) :
    pool_step i (x_pool g) = Some p' → xstep g (mkXPool p' (x_raised g))
| xstep_raise (i : nat) (g : XPool) (pc : Pc) (s : string) :
    p_pcs (x_pool g) !! i = Some pc →
    raises_at pc = Some s →
    xstep g (mkXPool (mkPool (emit (EvRelease s) (p_world (x_pool g)))
                             (alter S s (p_sems (x_pool g)))
                             (<[i := Finished false]> (p_pcs (x_pool g))))
                     ({[i]} ∪ x_raised g)).

Definition xreachable (w : World) (g : XPool) : Prop :=
  rtc xstep (mkXPool (pool_init w) ∅) g.

End Pool.

Inductive RunResult :=
| Fatal (e : PyError)
| BatchCompleted.

Section Run.

Variable sys_executable : string.
Variable spawn : nat → list string → ProcOutcome.
Variable now : nat → DateTime.
Variable upper : string → string.
Variable UPPER : string → string.

(** [run].  The interleaving of the pool threads is given by [sched]; the
    result is [None] when [sched] stops before every task has returned
    ([with ThreadPoolExecutor] only ends once they all have). *)
Definition run (self : Orchestrator) (sched : list nat) (w : World)
  : option (RunResult * World) :=
  let '(batch_id, w1) := get_or_create_batch now self w in
  let '(brands, w2) := get_target_brands upper UPPER self w1 in
  let w3 := set_total_brands batch_id (length brands) w2 in
  let max_workers := length brands `min` length (stages self) in
  if decide (max_workers ≤ 0)
  then Some (Fatal (ValueError "max_workers must be greater than 0"), w3)
  else
    let g := run_schedule sys_executable spawn self batch_id brands max_workers
                          sched (pool_init self brands w3) in
    if all_finished g
    then Some (BatchCompleted, finish_batch self batch_id (p_world g))
    else None.

End Run.

(** ** Vocabulary of the properties *)

(** The key of an entity's record at a stage. *)
Definition key_of (batch_id : string) (brand_info : BrandInfo) (stage : string) : Key :=
  (batch_id, mall_name brand_info, mall_brand_name_en brand_info, stage).

(** The actions recorded between two worlds. *)
Definition new_events (w w' : World) : list Event := drop (length (trace w)) (trace w').

(** A subprocess launched for an entity at a stage. *)
Definition is_exec_of (brand_info : BrandInfo) (stage : string) (e : Event) : bool :=
  match e with
  | EvExec m b s _ =>
      bool_decide (m = mall_name brand_info ∧ b = mall_brand_name_en brand_info ∧ s = stage)
  | _ => false
  end.

(** A write to an entity's record at a stage. *)
Definition is_write_of (brand_info : BrandInfo) (stage : string) (e : Event) : bool :=
  match e with
  | EvSetStatus m b s _ _ =>
      bool_decide (m = mall_name brand_info ∧ b = mall_brand_name_en brand_info ∧ s = stage)
  | _ => false
  end.

(** An action of an entity's pipeline at a stage; a subprocess is one of
    the units of the stage, launched for the name the entity goes by at that
    stage. *)
Definition about (sys_executable : string) (brand_info : BrandInfo) (stage : string)
    (e : Event) : Prop :=
  match e with
  | EvAcquire s | EvRelease s => s = stage
  | EvGetStatus m b s _ | EvSetStatus m b s _ _ =>
      m = mall_name brand_info ∧ b = mall_brand_name_en brand_info ∧ s = stage
  | EvExec m b s cmd =>
      m = mall_name brand_info ∧ b = mall_brand_name_en brand_info ∧ s = stage
      ∧ cmd ∈ commands_for sys_executable stage (target_brand_name brand_info stage)
  | _ => False
  end.

(** No subprocess launch and no write for an entity at a stage. *)
Definition leaves_alone (brand_info : BrandInfo) (stage : string) (e : Event) : Prop :=
  is_exec_of brand_info stage e = false ∧ is_write_of brand_info stage e = false.

(** A subprocess that ran and exited with status 0. *)
Definition exit_zero (o : ProcOutcome) : bool :=
  match o with
  | Exited rc => bool_decide (rc = 0%Z)
  | Raised _ => false
  end.

(** [w'] comes from [w] by actions that satisfy [P], one tick of the clock
    each, and writes to the keys in [K] only; a row that was there is still
    there with the [run_mode] and [started_at] it had; the batch table and
    the catalogue are as they were. *)
Definition evolves (P : Event → Prop) (K : Key → Prop) (w w' : World) : Prop :=
  pipeline_batches w' = pipeline_batches w
  ∧ mall_brands w' = mall_brands w
  ∧ (∀ k, ¬ K k → pipeline_control w' !! k = pipeline_control w !! k)
  ∧ (∀ k row, pipeline_control w !! k = Some row →
       ∃ row', pipeline_control w' !! k = Some row'
               ∧ c_started_at row' = c_started_at row
               ∧ c_run_mode row' = c_run_mode row)
  ∧ ∃ evs, trace w' = trace w ++ evs
           ∧ clock w' = clock w + length evs
           ∧ Forall P evs.

(** The stage whose record or worker an action touches. *)
Definition stage_access (e : Event) : option string :=
  match e with
  | EvGetStatus _ _ s _ | EvSetStatus _ _ s _ _ | EvExec _ _ s _ => Some s
  | _ => None
  end.

(** The ['RUNNING'] mark of a stage is recorded before its semaphore is
    taken. *)
Definition marks_running_before_acquire (brand_info : BrandInfo) (stage : string)
    (evs : list Event) : Prop :=
  ∃ i j, i < j
         ∧ evs !! i = Some (EvSetStatus (mall_name brand_info) (mall_brand_name_en brand_info)
                              stage "RUNNING" None)
         ∧ evs !! j = Some (EvAcquire stage).

(** Every task that waits for the semaphore of a stage shows ['RUNNING'] at
    that stage. *)
Definition waiting_shows_running (batch_id : string) (brands : list BrandInfo)
    (g : Pool) : Prop :=
  ∀ i brand_info stage rest,
    p_pcs g !! i = Some (AtLoop (stage :: rest)) →
    brands !! i = Some brand_info →
    sem_value stage (p_sems g) = 0 →
    stored_status (pipeline_control (p_world g)) (key_of batch_id brand_info stage)
    = "RUNNING".

(** A turn of the loop that creates the record of a stage, and so sets its
    [started_at], also marks it ['RUNNING']. *)
Definition started_at_needs_running (sys_executable : string)
    (spawn : nat → list string → ProcOutcome) (self : Orchestrator) (batch_id : string)
    (brand_info : BrandInfo) (stage : string) (w : World) : Prop :=
  let w' := (process_stage sys_executable spawn self batch_id brand_info stage w).2 in
  pipeline_control w !! key_of batch_id brand_info stage = None →
  is_Some (pipeline_control w' !! key_of batch_id brand_info stage) →
  EvSetStatus (mall_name brand_info) (mall_brand_name_en brand_info) stage "RUNNING" None
  ∈ new_events w w'.

(** A batch row that [get_or_create_batch] resumes for a run mode. *)
Definition is_running_batch (mode : string) (row : BatchRow) : Prop :=
  b_status row = "RUNNING" ∧ b_run_mode row = mode.

(** What identifies a batch row and decides whether it is resumed. *)
Definition batch_ident (row : BatchRow) : string * string * string :=
  (b_batch_id row, b_run_mode row, b_status row).

(** The closing of a batch. *)
Definition is_finish (e : Event) : bool :=
  match e with
  | EvFinishBatch _ _ _ => true
  | _ => false
  end.




(** The stage a task is in, if any, followed by the stages it has still to go
    through. *)
Definition pc_stages (pc : Pc) : list string :=
  match pc with
  | Queued | Finished _ => []
  | AtLoop todo => todo
  | Entered s rest | SkipWrite s rest | MarkRunning s rest | Cmds s _ rest
  | FailWrite s _ rest | Leaving s _ rest => s :: rest
  end.

(** A control point [process_brand_pipeline brand_info] can be at: its stages
    are stages of the run, and the units it has still to launch are units of
    its stage. *)
Definition pc_ok (sys_executable : string) (self : Orchestrator) (brand_info : BrandInfo)
    (pc : Pc) : Prop :=
  (∀ s, s ∈ pc_stages pc → s ∈ stages self)
  ∧ match pc with
    | Cmds s cmds _ =>
        ∀ cmd, cmd ∈ cmds →
               cmd ∈ commands_for sys_executable s (target_brand_name brand_info s)
    | _ => True
    end.

(** A thread running on its own for at most [fuel] actions. *)
Fixpoint thread_run (sys_executable : string) (spawn : nat → list string → ProcOutcome)
    (self : Orchestrator) (batch_id : string) (brand_info : BrandInfo) (fuel : nat)
    (pc : Pc) (w : World) (sems : gmap string nat) : Pc * World * gmap string nat :=
  match fuel with
  | 0 => (pc, w, sems)
  | S fuel' =>
      match thread_step sys_executable spawn self batch_id brand_info pc w sems with
      | Some (pc', w', sems') =>
          thread_run sys_executable spawn self batch_id brand_info fuel' pc' w' sems'
      | None => (pc, w, sems)
      end
  end.

(** Control points on the failure path of [execute_worker]. *)
Definition failed (pc : Pc) : bool :=
  match pc with
  | FailWrite _ _ _ | Leaving _ false _ | Finished false => true
  | _ => false
  end.

(** From a given time on, every unit of an entity exits with status 0. *)
Definition units_ok (sys_executable : string) (spawn : nat → list string → ProcOutcome)
    (self : Orchestrator) (brand_info : BrandInfo) (since : nat) : Prop :=
  ∀ t s cmd, since ≤ t → s ∈ stages self →
             cmd ∈ commands_for sys_executable s (target_brand_name brand_info s) →
             exit_zero (spawn t cmd) = true.

(** A bound on the actions a task has still to make. *)
Definition pc_measure (self : Orchestrator) (pc : Pc) : nat :=
  match pc with
  | Queued => 2 + 8 * length (stages self)
  | AtLoop todo => 1 + 8 * length todo
  | Entered _ rest => 8 + 8 * length rest
  | MarkRunning _ rest => 7 + 8 * length rest
  | Cmds _ cmds rest => 4 + length cmds + 8 * length rest
  | SkipWrite _ rest | FailWrite _ _ rest => 3 + 8 * length rest
  | Leaving _ _ rest => 2 + 8 * length rest
  | Finished _ => 0
  end.

Definition pool_measure (self : Orchestrator) (g : Pool) : nat :=
  sum_list (pc_measure self <$> p_pcs g).

(** A task inside the block of a stage, and a task at the head of the loop. *)
Definition inside (pc : Pc) : bool :=
  match held pc with
  | Some _ => true
  | None => false
  end.

Definition at_loop (pc : Pc) : bool :=
  match pc with
  | AtLoop _ => true
  | _ => false
  end.

(** The fields of a [datetime] that [%Y] renders with four digits: a year
    from 1000 to 9999, a month, a day of the month, and a time of day. *)
Definition valid_datetime (d : DateTime) : Prop :=
  (1000 ≤ year d ∧ year d < 100 * 100)
  ∧ (1 ≤ month d ∧ month d ≤ 12)
  ∧ (1 ≤ day d ∧ day d ≤ 31)
  ∧ hour d < 24 ∧ minute d < 60 ∧ second d < 60.

(** What a control point counts for in the width of the pool. *)
Definition load (pc : Pc) : nat := if running pc then 1 else 0.

(** Number of tasks inside the block of some stage. *)
Definition in_block (pc : Pc) : nat := if inside pc then 1 else 0.

Definition blocks_in_use (pcs : list Pc) : nat := sum_list (in_block <$> pcs).

(** What a control point counts for among the tasks that hold the semaphore
    of a stage of a list. *)
Definition holds_one_of (stages : list string) (pc : Pc) : nat :=
  match held pc with
  | Some s => if bool_decide (s ∈ stages) then 1 else 0
  | None => 0
  end.

(** A task that is launching the units of a stage or about to record their
    failure. *)
Definition works_on (s : string) (pc : Pc) : bool :=
  match pc with
  | Cmds s' _ _ | FailWrite s' _ _ => bool_decide (s' = s)
  | _ => false
  end.

(** The identity of an entity in the stage records. *)
Definition entity_key (brand_info : BrandInfo) : string * string :=
  (mall_name brand_info, mall_brand_name_en brand_info).

(** A subprocess launched with the interpreter, one script and the option
    [--brand] followed by a name. *)
Definition brand_command (sys_executable name : string) (cmd : list string) : Prop :=
  ∃ script, cmd = [sys_executable; script; "--brand"; name].

(** No subprocess launch for an entity at a stage. *)
Definition leaves_exec (brand_info : BrandInfo) (stage : string) (e : Event) : Prop :=
  is_exec_of brand_info stage e = false.

(** ** Sample inputs *)

Definition orch_full : Orchestrator :=
  mkOrchestrator "FULL" None None [] ALL_STAGES "REGISTER".

Definition orch_partial : Orchestrator :=
  mkOrchestrator "PARTIAL" None None [] ALL_STAGES "REGISTER".


Definition brand_ami : BrandInfo := mkBrandInfo "okmall" "AMI" (Some "Ami Paris").

Definition brand_nike : BrandInfo := mkBrandInfo "okmall" "NIKE" None.



(** An empty store with two active brands in the catalogue. *)
Definition world0 : World :=
  mkWorld ∅ [] [mkCatalogRow brand_ami 1; mkCatalogRow brand_nike 1] 0 [].

(** The same with the COLLECT record of AMI already ['DONE'] in batch [B1]. *)
Definition world_collected : World :=
  set_control {[ ("B1", "okmall", "AMI", "COLLECT")
                 := mkControlRow "FULL" "DONE" None 2 (ColVal 4) ]} world0.

(** A store in which an earlier run of batch [B1] left AMI at COLLECT with
    an error; the clock reads 7. *)
Definition world_retry : World :=
  mkWorld {[ ("B1", "okmall", "AMI", "COLLECT")
             := mkControlRow "FULL" "ERROR" (Some (py "boom")) 2 (ColVal 4) ]}
          [mkBatchRow "B1" "FULL" "RUNNING" (ColVal 2) ColDefault ColDefault]
          [mkCatalogRow brand_ami 1; mkCatalogRow brand_nike 1] 7 [].

(** A FULL run that excludes AMI, the name given in lower case, and one
    restricted to AMI. *)
Definition orch_excluding_ami : Orchestrator :=
  mkOrchestrator "FULL" None None ["AMI"] ALL_STAGES "REGISTER".

Definition orch_only_ami : Orchestrator :=
  mkOrchestrator "FULL" None (Some "ami") [] ALL_STAGES "REGISTER".

(** Every unit exits with status 0. *)
Definition spawn_ok : nat → list string → ProcOutcome := λ _ _, Exited 0.

(** The converter of AMI exits with status 1; every other unit with 0. *)
Definition spawn_ami_convert_fails : nat → list string → ProcOutcome :=
  λ _ cmd,
    if decide (cmd = ["python"; "raw_to_ace_converter.py"; "--brand"; "AMI"])
    then Exited 1 else Exited 0.

(** A wall clock: 28 January 2026, 09:30, the seconds following the ticks. *)
Definition wall (t : nat) : DateTime := mkDateTime 2026 1 28 9 30 (t mod 60).

(** * Properties *)

(** ** How a world evolves *)

Lemma evolves_refl P K w : evolves P K w w.
Proof.
  repeat split; try done.
  - intros k row Hk. by exists row.
  - exists []. rewrite app_nil_r. cbn. split; [done|]. split; [lia|done].
Qed.

Lemma evolves_trans P K w1 w2 w3 :
  evolves P K w1 w2 → evolves P K w2 w3 → evolves P K w1 w3.
Proof.
  intros (Hb1 & Hm1 & Hk1 & Hs1 & evs1 & Ht1 & Hc1 & Hf1)
         (Hb2 & Hm2 & Hk2 & Hs2 & evs2 & Ht2 & Hc2 & Hf2).
  split; [congruence|]. split; [congruence|]. split; [|split].
  - intros k Hk. rewrite Hk2, Hk1; done.
  - intros k row Hk.
    destruct (Hs1 k row Hk) as (row1 & Hk' & Hst1 & Hrm1).
    destruct (Hs2 k row1 Hk') as (row2 & Hk'' & Hst2 & Hrm2).
    exists row2. split; [done|]. split; congruence.
  - exists (evs1 ++ evs2). split; [|split].
    + rewrite Ht2, Ht1. by rewrite app_assoc.
    + rewrite length_app. lia.
    + by apply Forall_app.
Qed.

Lemma evolves_weaken (P Q : Event → Prop) (K L : Key → Prop) w w' :
  (∀ e, P e → Q e) → (∀ k, K k → L k) → evolves P K w w' → evolves Q L w w'.
Proof.
  intros HPQ HKL (Hb & Hm & Hk & Hs & evs & Ht & Hc & Hf).
  repeat split; try done.
  - intros k Hn. apply Hk. intros HK. apply Hn, HKL, HK.
  - exists evs. split; [done|]. split; [done|]. eapply Forall_impl; eauto.
Qed.

Lemma evolves_emit (P : Event → Prop) K e w : P e → evolves P K w (emit e w).
Proof.
  intros He. repeat split; try done.
  - intros k row Hk. by exists row.
  - exists [e]. cbn. split; [done|]. split; [lia|]. by constructor.
Qed.

Lemma evolves_update (P : Event → Prop) (K : Key → Prop) self batch mall brand stage status msg w :
  P (EvSetStatus mall brand stage status msg) →
  K (batch, mall, brand, stage) →
  evolves P K w (update_stage_status self batch mall brand stage status msg w).
Proof.
  intros He HK. unfold update_stage_status. repeat split; try done.
  - intros k Hn. cbn. apply lookup_insert_ne. intros <-. by apply Hn.
  - intros k row Hk.
    destruct (decide (k = (batch, mall, brand, stage))) as [->|Hne].
    + rewrite Hk. cbn. rewrite lookup_insert_eq. eexists. split; [done|]. by split.
    + cbn. rewrite lookup_insert_ne by done. by exists row.
  - exists [EvSetStatus mall brand stage status msg]. cbn.
    split; [done|]. split; [lia|]. by constructor.
Qed.

Lemma evolves_get (P : Event → Prop) K batch mall brand stage w :
  P (EvGetStatus mall brand stage
       (stored_status (pipeline_control w) (batch, mall, brand, stage))) →
  evolves P K w (get_stage_status batch mall brand stage w).2.
Proof. intros He. unfold get_stage_status. cbn. by apply evolves_emit. Qed.

Lemma evolves_frame P K w w' k :
  evolves P K w w' → ¬ K k → pipeline_control w' !! k = pipeline_control w !! k.
Proof. intros (_ & _ & Hk & _) Hn. by apply Hk. Qed.

Lemma evolves_clock P K w w' : evolves P K w w' → clock w ≤ clock w'.
Proof. intros (_ & _ & _ & _ & evs & _ & Hc & _). lia. Qed.

(** The new actions of an evolution are the ones it lists. *)
Lemma new_events_app w w' evs : trace w' = trace w ++ evs → new_events w w' = evs.
Proof. intros Ht. unfold new_events. rewrite Ht. by rewrite drop_app_length. Qed.

Lemma evolves_new_events P K w w' : evolves P K w w' → Forall P (new_events w w').
Proof. intros (_ & _ & _ & _ & evs & Ht & _ & Hf). by rewrite (new_events_app _ _ _ Ht). Qed.

Section PipelineFacts.

Variable sys_executable : string.
Variable spawn : nat → list string → ProcOutcome.
Variable self : Orchestrator.
Variable batch_id : string.
Variable brand_info : BrandInfo.


Lemma run_command_evolves stage cmd w :
  cmd ∈ commands_for sys_executable stage (target_brand_name brand_info stage) →
  evolves (about sys_executable brand_info stage)
          (λ k, k = key_of batch_id brand_info stage)
          w (run_command spawn (mall_name brand_info) (mall_brand_name_en brand_info) stage cmd w).2.
Proof.
  intros Hcmd. unfold run_command.
  assert (evolves (about sys_executable brand_info stage)
                  (λ k, k = key_of batch_id brand_info stage)
                  w (emit (EvExec (mall_name brand_info) (mall_brand_name_en brand_info) stage cmd) w)) as H
    by (apply evolves_emit; cbn; done).
  destruct (spawn (clock w) cmd); [case_decide|]; exact H.
Qed.

Lemma run_commands_evolves stage cmds w :
  (∀ cmd, cmd ∈ cmds →
          cmd ∈ commands_for sys_executable stage (target_brand_name brand_info stage)) →
  evolves (about sys_executable brand_info stage)
          (λ k, k = key_of batch_id brand_info stage)
          w (run_commands spawn self batch_id (mall_name brand_info) (mall_brand_name_en brand_info) stage cmds w).2.
Proof.
  revert w. induction cmds as [|cmd cmds IH]; intros w Hsub; cbn.
  - apply evolves_update; cbn; done.
  - pose proof (run_command_evolves stage cmd w
                  (Hsub cmd (list_elem_of_here _ _))) as H.
    destruct (run_command spawn (mall_name brand_info) (mall_brand_name_en brand_info) stage cmd w) as [[msg|] w']; cbn in *.
    + eapply evolves_trans; [exact H|]. apply evolves_update; cbn; done.
    + eapply evolves_trans; [exact H|]. apply IH.
      intros c Hc. apply Hsub. by apply list_elem_of_further.
Qed.

Lemma execute_worker_evolves stage w :
  evolves (about sys_executable brand_info stage)
          (λ k, k = key_of batch_id brand_info stage)
          w (execute_worker sys_executable spawn self batch_id (mall_name brand_info) (mall_brand_name_en brand_info) stage
               (target_brand_name brand_info stage) w).2.
Proof.
  unfold execute_worker. eapply evolves_trans; [|by apply run_commands_evolves].
  apply evolves_update; cbn; done.
Qed.

Lemma stage_body_evolves stage w :
  evolves (about sys_executable brand_info stage)
          (λ k, k = key_of batch_id brand_info stage)
          w (stage_body sys_executable spawn self batch_id brand_info stage w).2.
Proof.
  unfold stage_body.
  pose proof (evolves_get (about sys_executable brand_info stage)
                (λ k, k = key_of batch_id brand_info stage)
                batch_id (mall_name brand_info) (mall_brand_name_en brand_info) stage w) as Hg.
  destruct (get_stage_status batch_id (mall_name brand_info)
              (mall_brand_name_en brand_info) stage w) as [status w1] eqn:E.
  cbn in Hg.
  specialize (Hg ltac:(cbn; done)).
  case_decide; [exact Hg|].
  destruct (partial_skip self stage); cbn.
  - eapply evolves_trans; [exact Hg|]. apply evolves_update; cbn; done.
  - eapply evolves_trans; [exact Hg|]. apply execute_worker_evolves.
Qed.

Lemma process_stage_evolves stage w :
  evolves (about sys_executable brand_info stage)
          (λ k, k = key_of batch_id brand_info stage)
          w (process_stage sys_executable spawn self batch_id brand_info stage w).2.
Proof.
  unfold process_stage.
  pose proof (stage_body_evolves stage (emit (EvAcquire stage) w)) as H.
  destruct (stage_body sys_executable spawn self batch_id brand_info stage
              (emit (EvAcquire stage) w)) as [ok w'].
  cbn in *.
  apply (evolves_trans _ _ _ (emit (EvAcquire stage) w)); [apply evolves_emit; cbn; done|].
  eapply evolves_trans; [exact H|]. apply evolves_emit; cbn; done.
Qed.

Lemma pipeline_loop_evolves todo w :
  evolves (λ e, ∃ s, s ∈ todo ∧ about sys_executable brand_info s e)
          (λ k, ∃ s, s ∈ todo ∧ k = key_of batch_id brand_info s)
          w (pipeline_loop sys_executable spawn self batch_id brand_info todo w).2.
Proof.
  revert w. induction todo as [|stage rest IH]; intros w; cbn.
  - apply evolves_refl.
  - pose proof (process_stage_evolves stage w) as H.
    destruct (process_stage sys_executable spawn self batch_id brand_info stage w)
      as [[|] w']; cbn in *.
    + eapply evolves_trans.
      * eapply evolves_weaken; [| |exact H].
        -- intros e He. exists stage. split; [apply list_elem_of_here|done].
        -- intros k ->. exists stage. split; [apply list_elem_of_here|done].
      * eapply evolves_weaken; [| |apply IH].
        -- intros e (s & Hs & He). exists s. split; [by apply list_elem_of_further|done].
        -- intros k (s & Hs & ->). exists s. split; [by apply list_elem_of_further|done].
    + eapply evolves_weaken; [| |exact H].
      * intros e He. exists stage. split; [apply list_elem_of_here|done].
      * intros k ->. exists stage. split; [apply list_elem_of_here|done].
Qed.

End PipelineFacts.

(** ** Resumption and the PARTIAL policy *)

Section SkipRules.

Variable sys_executable : string.
Variable spawn : nat → list string → ProcOutcome.
Variable self : Orchestrator.
Variable batch_id : string.
Variable brand_info : BrandInfo.


(** The world after a turn of the loop that found the stage ['DONE']. *)
Lemma process_stage_done stage w :
  stored_status (pipeline_control w) (key_of batch_id brand_info stage) = "DONE" →
  process_stage sys_executable spawn self batch_id brand_info stage w
  = (true, emit (EvRelease stage)
             (emit (EvGetStatus (mall_name brand_info) (mall_brand_name_en brand_info) stage "DONE") (emit (EvAcquire stage) w))).
Proof.
  intros Hd. unfold process_stage, stage_body, get_stage_status. cbn.
  unfold key_of in Hd. rewrite Hd. by rewrite decide_True.
Qed.

Lemma about_other_stage stage stage' e :
  stage' ≠ stage → about sys_executable brand_info stage' e →
  leaves_alone brand_info stage e.
Proof.
  intros Hne Ha. unfold leaves_alone.
  destruct e; cbn in *; try done.
  - destruct Ha as (-> & -> & ->). split; [done|]. apply bool_decide_eq_false. by intros (_ & _ & ?).
  - destruct Ha as (-> & -> & -> & _). split; [|done]. apply bool_decide_eq_false. by intros (_ & _ & ?).
Qed.

Lemma pipeline_loop_done stage todo w :
  stored_status (pipeline_control w) (key_of batch_id brand_info stage) = "DONE" →
  evolves (leaves_alone brand_info stage) (λ k, k ≠ key_of batch_id brand_info stage)
          w (pipeline_loop sys_executable spawn self batch_id brand_info todo w).2.
Proof.
  revert w. induction todo as [|stage' rest IH]; intros w Hd; cbn.
  - apply evolves_refl.
  - destruct (decide (stage' = stage)) as [->|Hne].
    + rewrite (process_stage_done _ _ Hd).
      eapply evolves_trans; [|apply IH; exact Hd].
      repeat split; try done.
      { intros k row Hk. by exists row. }
      eexists [_; _; _]. cbn. split; [by rewrite <- !app_assoc|].
      split; [lia|]. repeat constructor.
    + pose proof (process_stage_evolves sys_executable spawn self batch_id
                    brand_info stage' w) as H.
      assert (evolves (leaves_alone brand_info stage) (λ k, k ≠ key_of batch_id brand_info stage) w
                (process_stage sys_executable spawn self batch_id brand_info stage' w).2)
        as H'.
      { eapply evolves_weaken; [| |exact H].
        - intros e. by apply about_other_stage.
        - intros k -> [=]. done. }
      destruct (process_stage sys_executable spawn self batch_id brand_info stage' w)
        as [[|] w'] eqn:E; cbn in *; [|exact H'].
      eapply evolves_trans; [exact H'|]. apply IH.
      unfold stored_status in *.
      rewrite (evolves_frame _ _ _ _ _ H'); [done|]. intros Hc. by apply Hc.
Qed.

(** C2. A stage whose stored status is ['DONE'] when the pipeline reaches it
    is skipped: the turn of the loop reads the status and nothing else, the
    loop goes on with the next stage, and a whole pipeline started with the
    stage ['DONE'] neither launches a worker unit for it nor writes its
    record. *)
Theorem done_stage_never_rerun stage rest w :
  stored_status (pipeline_control w) (key_of batch_id brand_info stage) = "DONE" →
  pipeline_loop sys_executable spawn self batch_id brand_info (stage :: rest) w
  = pipeline_loop sys_executable spawn self batch_id brand_info rest
      (emit (EvRelease stage)
         (emit (EvGetStatus (mall_name brand_info) (mall_brand_name_en brand_info) stage "DONE") (emit (EvAcquire stage) w)))
  ∧ let w' := (process_brand_pipeline sys_executable spawn self batch_id brand_info w).2 in
    pipeline_control w' !! key_of batch_id brand_info stage
    = pipeline_control w !! key_of batch_id brand_info stage
    ∧ Forall (λ e, is_exec_of brand_info stage e = false
                   ∧ is_write_of brand_info stage e = false) (new_events w w').
Proof.
  intros Hd. split.
  - cbn. by rewrite (process_stage_done _ _ Hd).
  - pose proof (pipeline_loop_done stage (stages self) w Hd) as H.
    cbn. split.
    + apply (evolves_frame _ _ _ _ _ H). intros Hc. by apply Hc.
    + apply (evolves_new_events _ _ _ _ H).
Qed.

End SkipRules.

(** AMI's COLLECT is already ['DONE'] in batch [B1]: the loop reads the status
    and goes on with CONVERT. *)
Lemma done_stage_never_rerun_witness :
  pipeline_loop "python" spawn_ok orch_full "B1" brand_ami ["COLLECT"; "CONVERT"]
    world_collected
  = pipeline_loop "python" spawn_ok orch_full "B1" brand_ami ["CONVERT"]
      (emit (EvRelease "COLLECT")
         (emit (EvGetStatus "okmall" "AMI" "COLLECT" "DONE")
            (emit (EvAcquire "COLLECT") world_collected))).
Proof.
  apply (proj1 (done_stage_never_rerun "python" spawn_ok orch_full "B1" brand_ami
                  "COLLECT" ["CONVERT"] world_collected
                  ltac:(vm_compute; reflexivity))).
Defined.

(** ** The worker invocation layer *)

Section WorkerFacts.

Variable sys_executable : string.
Variable spawn : nat → list string → ProcOutcome.
Variable self : Orchestrator.
Variables batch_id mall brand stage : string.

Lemma update_stage_status_lookup status msg w :
  pipeline_control (update_stage_status self batch_id mall brand stage status msg w)
    !! (batch_id, mall, brand, stage)
  = Some (upsert (run_mode self) status msg (clock w)
            (pipeline_control w !! (batch_id, mall, brand, stage))).
Proof. unfold update_stage_status. cbn. by rewrite lookup_insert_eq. Qed.

Lemma update_stage_status_status status msg w :
  stored_status
    (pipeline_control (update_stage_status self batch_id mall brand stage status msg w))
    (batch_id, mall, brand, stage) = status.
Proof.
  unfold stored_status. rewrite update_stage_status_lookup.
  by destruct (pipeline_control w !! _).
Qed.

Lemma update_stage_status_msg status msg w :
  c_error_msg <$> pipeline_control
                    (update_stage_status self batch_id mall brand stage status msg w)
                  !! (batch_id, mall, brand, stage)
  = Some msg.
Proof.
  rewrite update_stage_status_lookup. by destruct (pipeline_control w !! _).
Qed.

Lemma update_stage_status_trace status msg w :
  trace (update_stage_status self batch_id mall brand stage status msg w)
  = trace w ++ [EvSetStatus mall brand stage status msg].
Proof. done. Qed.

Lemma update_stage_status_clock status msg w :
  clock (update_stage_status self batch_id mall brand stage status msg w) = S (clock w).
Proof. done. Qed.

(** One unit: what is recorded, and when a diagnostic comes back. *)
Lemma run_command_spec cmd w :
  let r := run_command spawn mall brand stage cmd w in
  r.2 = emit (EvExec mall brand stage cmd) w
  ∧ match r.1 with
    | None => exit_zero (spawn (clock w) cmd) = true
    | Some m => exit_zero (spawn (clock w) cmd) = false ∧ length m ≤ 500
    end.
Proof.
  unfold run_command. cbn zeta.
  destruct (spawn (clock w) cmd) as [rc|msg]; cbn.
  - case_decide as Hrc; cbn.
    + split; [done|]. split; [by apply bool_decide_eq_false|].
      rewrite length_take. lia.
    + split; [done|]. apply bool_decide_eq_true. by destruct (decide (rc = 0%Z)).
  - split; [done|]. split; [done|]. rewrite length_take. lia.
Qed.

(** The loop over the units: the units launched are a prefix of the list,
    in order; the result is [true] exactly when every unit exited with
    status 0, and otherwise the loop stopped at the first that did not. *)
Lemma run_commands_spec cmds w :
  let r := run_commands spawn self batch_id mall brand stage cmds w in
  ∃ n msg,
    trace r.2 = trace w ++ (EvExec mall brand stage <$> take n cmds)
                ++ [EvSetStatus mall brand stage (if r.1 then "DONE" else "ERROR") msg]
    ∧ stored_status (pipeline_control r.2) (batch_id, mall, brand, stage)
      = (if r.1 then "DONE" else "ERROR")
    ∧ (c_error_msg <$> pipeline_control r.2 !! (batch_id, mall, brand, stage)) = Some msg
    ∧ if r.1
      then n = length cmds ∧ msg = None
           ∧ ∀ i cmd, cmds !! i = Some cmd → exit_zero (spawn (clock w + i) cmd) = true
      else ∃ i cmd m,
             n = S i ∧ cmds !! i = Some cmd
             ∧ exit_zero (spawn (clock w + i) cmd) = false
             ∧ (∀ j cmd', j < i → cmds !! j = Some cmd' →
                  exit_zero (spawn (clock w + j) cmd') = true)
             ∧ msg = Some m ∧ length m ≤ 500.
Proof.
  revert w. induction cmds as [|cmd cmds IH]; intros w; cbn zeta.
  - exists 0, None. cbn [run_commands fst snd].
    rewrite update_stage_status_trace, update_stage_status_status,
      update_stage_status_msg.
    repeat split; try done.
  - cbn [run_commands].
    destruct (run_command_spec cmd w) as [Hw Hr].
    destruct (run_command spawn mall brand stage cmd w) as [[m|] w'] eqn:E;
      cbn [fst snd] in *; subst w'.
    + destruct Hr as [Hz Hlen].
      exists 1, (Some m).
      rewrite update_stage_status_trace, update_stage_status_status,
        update_stage_status_msg.
      cbn. rewrite <- app_assoc. repeat split; try done.
      exists 0, cmd, m. rewrite Nat.add_0_r. repeat split; try done.
      intros j cmd' Hj. lia.
    + specialize (IH (emit (EvExec mall brand stage cmd) w)).
      cbn zeta in IH.
      destruct (run_commands spawn self batch_id mall brand stage cmds
                  (emit (EvExec mall brand stage cmd) w)) as [ok w''].
      cbn [fst snd] in *.
      destruct IH as (n & msg & Ht & Hs & Hm & Hcase).
      exists (S n), msg. rewrite Ht. cbn. rewrite <- !app_assoc. cbn.
      repeat split; try done.
      destruct ok.
      * destruct Hcase as (-> & -> & Hall). repeat split; try done.
        intros [|i] c Hi; cbn in Hi.
        -- injection Hi as <-. by rewrite Nat.add_0_r.
        -- specialize (Hall i c Hi). by replace (clock w + S i) with (S (clock w + i)) by lia.
      * destruct Hcase as (i & c & m & -> & Hi & Hz & Hbefore & -> & Hlen).
        exists (S i), c, m. repeat split; try done.
        -- by replace (clock w + S i) with (S (clock w + i)) by lia.
        -- intros [|j] c' Hj Hc'; cbn in Hc'.
           ++ injection Hc' as <-. by rewrite Nat.add_0_r.
           ++ replace (clock w + S j) with (S (clock w + j)) by lia.
              apply Hbefore; [lia|done].
Qed.

End WorkerFacts.

Section StageOutcome.

Variable sys_executable : string.
Variable spawn : nat → list string → ProcOutcome.
Variable self : Orchestrator.
Variable batch_id : string.

(** [execute_worker] marks the record ['RUNNING'], launches a prefix of the
    stage's units in their order, and ends with one write. *)
Lemma execute_worker_spec mall brand stage target w :
  let cmds := commands_for sys_executable stage target in
  let r := execute_worker sys_executable spawn self batch_id mall brand stage target w in
  ∃ n msg,
    trace r.2 = trace w ++ EvSetStatus mall brand stage "RUNNING" None
                :: (EvExec mall brand stage <$> take n cmds)
                ++ [EvSetStatus mall brand stage (if r.1 then "DONE" else "ERROR") msg]
    ∧ stored_status (pipeline_control r.2) (batch_id, mall, brand, stage)
      = (if r.1 then "DONE" else "ERROR")
    ∧ if r.1
      then n = length cmds
           ∧ ∀ i cmd, cmds !! i = Some cmd →
                      exit_zero (spawn (S (clock w) + i) cmd) = true
      else ∃ i cmd,
             n = S i ∧ cmds !! i = Some cmd
             ∧ exit_zero (spawn (S (clock w) + i) cmd) = false
             ∧ ∀ j cmd', j < i → cmds !! j = Some cmd' →
                         exit_zero (spawn (S (clock w) + j) cmd') = true.
Proof.
  cbn zeta. unfold execute_worker.
  pose proof (run_commands_spec spawn self batch_id mall brand stage
                (commands_for sys_executable stage target)
                (update_stage_status self batch_id mall brand stage "RUNNING" None w)) as H.
  cbn zeta in H.
  destruct (run_commands spawn self batch_id mall brand stage
              (commands_for sys_executable stage target)
              (update_stage_status self batch_id mall brand stage "RUNNING" None w))
    as [ok w'].
  cbn [fst snd] in *.
  destruct H as (n & msg & Ht & Hs & _ & Hcase).
  exists n, msg. rewrite update_stage_status_trace in Ht.
  rewrite update_stage_status_clock in Hcase.
  split; [by rewrite Ht, <- app_assoc|]. split; [done|].
  destruct ok.
  - destruct Hcase as (-> & _ & Hall). by split.
  - destruct Hcase as (i & cmd & m & -> & Hi & Hz & Hb & _). by exists i, cmd.
Qed.

(** C7. The IMAGE stage maps to the image-fetch unit followed by the
    image-upload unit.  For every stage, [execute_worker] marks the record
    ['RUNNING'], launches a prefix of the stage's units in their order, and
    ends with one write: ['DONE'] when every unit was launched and exited
    with status 0, ['ERROR'] when the last unit launched exited non-zero or
    raised, the units before it having exited with 0 and the units after it
    never being launched. *)
Theorem stage_units_run_in_order mall brand stage target w :
  commands_for sys_executable "IMAGE" target
  = [[sys_executable; "image_collector_parallel.py"; "--brand"; target];
     [sys_executable; "r2_image_uploader.py"; "--brand"; target]]
  ∧ let cmds := commands_for sys_executable stage target in
    let r := execute_worker sys_executable spawn self batch_id mall brand stage target w in
    ∃ n msg,
      trace r.2 = trace w ++ EvSetStatus mall brand stage "RUNNING" None
                  :: (EvExec mall brand stage <$> take n cmds)
                  ++ [EvSetStatus mall brand stage (if r.1 then "DONE" else "ERROR") msg]
      ∧ stored_status (pipeline_control r.2) (batch_id, mall, brand, stage)
        = (if r.1 then "DONE" else "ERROR")
      ∧ if r.1
        then n = length cmds
             ∧ ∀ i cmd, cmds !! i = Some cmd →
                        exit_zero (spawn (S (clock w) + i) cmd) = true
        else ∃ i cmd,
               n = S i ∧ cmds !! i = Some cmd
               ∧ exit_zero (spawn (S (clock w) + i) cmd) = false
               ∧ ∀ j cmd', j < i → cmds !! j = Some cmd' →
                           exit_zero (spawn (S (clock w) + j) cmd') = true.
Proof. split; [done|]. apply execute_worker_spec. Qed.

Variable brand_info : BrandInfo.


(** A turn of the loop that ends the pipeline leaves the record at
    ['ERROR'] with a diagnostic of at most 500 characters. *)
Lemma process_stage_false stage w w' :
  process_stage sys_executable spawn self batch_id brand_info stage w = (false, w') →
  ∃ row m, pipeline_control w' !! key_of batch_id brand_info stage = Some row
           ∧ c_status row = "ERROR" ∧ c_error_msg row = Some m ∧ length m ≤ 500.
Proof.
  unfold process_stage, stage_body, get_stage_status, execute_worker. cbn zeta.
  case_decide; [done|].
  destruct (partial_skip self stage); [done|].
  match goal with
  | |- context [run_commands _ _ _ _ _ _ ?c ?w0] =>
      pose proof (run_commands_spec spawn self batch_id (mall_name brand_info) (mall_brand_name_en brand_info) stage c w0) as H';
      destruct (run_commands spawn self batch_id (mall_name brand_info)
                  (mall_brand_name_en brand_info) stage c w0) as [ok w1] eqn:E
  end.
  cbn [fst snd] in H'.
  intros [= -> <-].
  destruct H' as (n & msg & _ & Hs & Hm & i & cmd & m & _ & _ & _ & _ & -> & Hlen).
  unfold key_of. cbn. unfold stored_status in Hs.
  destruct (pipeline_control w1 !! _) as [row|]; [|done].
  exists row, m. cbn in Hm. split; [done|]. split; [done|]. split; [congruence|done].
Qed.

Lemma pipeline_loop_app pre post w :
  pipeline_loop sys_executable spawn self batch_id brand_info (pre ++ post) w
  = match pipeline_loop sys_executable spawn self batch_id brand_info pre w with
    | (true, w1) => pipeline_loop sys_executable spawn self batch_id brand_info post w1
    | (false, w1) => (false, w1)
    end.
Proof.
  revert w. induction pre as [|s pre IH]; intros w; cbn; [done|].
  destruct (process_stage sys_executable spawn self batch_id brand_info s w) as [[|] w1];
    [apply IH|done].
Qed.

(** A turn of the loop whose units all exit with status 0 succeeds and
    leaves the stage ['DONE']. *)
Lemma process_stage_all_ok stage w :
  (∀ t cmd, clock w ≤ t →
            cmd ∈ commands_for sys_executable stage (target_brand_name brand_info stage) →
            exit_zero (spawn t cmd) = true) →
  let r := process_stage sys_executable spawn self batch_id brand_info stage w in
  r.1 = true
  ∧ stored_status (pipeline_control r.2) (key_of batch_id brand_info stage) = "DONE".
Proof.
  intros Hok. cbn zeta.
  unfold process_stage, stage_body, get_stage_status, execute_worker. cbn zeta.
  case_decide as Hd; [by split|].
  destruct (partial_skip self stage).
  { split; [done|]. cbn [snd]. unfold key_of.
    change (pipeline_control (emit ?e ?w0)) with (pipeline_control w0).
    apply update_stage_status_status. }
  match goal with
  | |- context [run_commands _ _ _ _ _ _ ?c ?w0] =>
      pose proof (run_commands_spec spawn self batch_id (mall_name brand_info) (mall_brand_name_en brand_info) stage c w0) as H';
      destruct (run_commands spawn self batch_id (mall_name brand_info)
                  (mall_brand_name_en brand_info) stage c w0) as [ok w1] eqn:E
  end.
  cbn [fst snd] in *.
  destruct H' as (n & msg & _ & Hs & _ & Hcase).
  destruct ok; [by split|].
  destruct Hcase as (i & cmd & m & _ & Hi & Hz & _).
  rewrite Hok in Hz; [done| |].
  - cbn. lia.
  - apply list_elem_of_lookup. by exists i.
Qed.

(** A pipeline whose units all exit with status 0 returns [True] with
    every stage of its list ['DONE']. *)
Lemma pipeline_all_ok todo w :
  (∀ t s cmd, clock w ≤ t → s ∈ todo →
              cmd ∈ commands_for sys_executable s (target_brand_name brand_info s) →
              exit_zero (spawn t cmd) = true) →
  let r := pipeline_loop sys_executable spawn self batch_id brand_info todo w in
  r.1 = true
  ∧ ∀ s, s ∈ todo →
         stored_status (pipeline_control r.2) (key_of batch_id brand_info s) = "DONE".
Proof.
  revert w. induction todo as [|stage rest IH]; intros w Hok; cbn zeta.
  - split; [done|]. intros s Hs. by apply elem_of_nil in Hs.
  - cbn [pipeline_loop].
    destruct (process_stage_all_ok stage w) as [H1 H2].
    { intros t cmd Ht Hc. apply (Hok t stage cmd); [done|apply list_elem_of_here|done]. }
    pose proof (process_stage_evolves sys_executable spawn self batch_id
                  brand_info stage w) as Hev.
    destruct (process_stage sys_executable spawn self batch_id brand_info stage w)
      as [ok w1].
    cbn [fst snd] in *. subst ok.
    destruct (IH w1) as [H3 H4].
    { intros t s cmd Ht Hs Hc. apply (Hok t s cmd); [|by apply list_elem_of_further|done].
      pose proof (evolves_clock _ _ _ _ Hev). lia. }
    split; [done|].
    intros s [->|Hs]%elem_of_cons; [|by apply H4].
    pose proof (pipeline_loop_done sys_executable spawn self batch_id brand_info
                  stage rest w1 H2) as Hd.
    unfold stored_status in *.
    rewrite (evolves_frame _ _ _ _ _ Hd); [done|]. intros Hc. by apply Hc.
Qed.

End StageOutcome.

(** ** The semaphores of the pool *)

Lemma sum_list_insert (f : Pc → nat) pcs i pc pc' :
  pcs !! i = Some pc →
  sum_list (f <$> <[i := pc']> pcs) + f pc = sum_list (f <$> pcs) + f pc'.
Proof.
  revert i. induction pcs as [|p pcs IH]; intros [|i] Hi; csimpl in *; try done.
  - injection Hi as ->. lia.
  - specialize (IH i Hi). lia.
Qed.

Lemma holders_insert s pcs i pc pc' :
  pcs !! i = Some pc →
  holders s (<[i := pc']> pcs) + weight s pc = holders s pcs + weight s pc'.
Proof. apply sum_list_insert. Qed.

Lemma holders_two s pcs i j p q :
  i ≠ j → pcs !! i = Some p → pcs !! j = Some q →
  weight s p + weight s q ≤ holders s pcs.
Proof.
  intros Hne Hi Hj.
  pose proof (holders_insert s pcs i p Queued Hi) as H1.
  assert (<[i := Queued]> pcs !! j = Some q) as Hj'
    by (by rewrite list_lookup_insert_ne).
  pose proof (holders_insert s (<[i := Queued]> pcs) j q Queued Hj') as H2.
  change (weight s Queued) with 0 in *. lia.
Qed.

Lemma holders_replicate_queued s n : holders s (replicate n Queued) = 0.
Proof. unfold holders. induction n as [|n IH]; csimpl; [done|]. by rewrite IH. Qed.

Lemma stage_locks_binary self s : sem_value s (stage_locks self) ≤ 1.
Proof.
  unfold sem_value, stage_locks.
  destruct (list_to_map _ !! s) as [v|] eqn:E; cbn; [|lia].
  apply elem_of_list_to_map_2 in E.
  apply list_elem_of_fmap in E as (x & [= -> ->] & _). lia.
Qed.

Section PoolFacts.

Variable sys_executable : string.
Variable spawn : nat → list string → ProcOutcome.
Variable self : Orchestrator.
Variable batch_id : string.

(** An action of a thread moves one unit between the thread and the
    semaphore of the stage it enters or leaves, and never adds any. *)
Lemma thread_step_weight brand_info pc w sems pc' w' sems' s :
  thread_step sys_executable spawn self batch_id brand_info pc w sems
  = Some (pc', w', sems') →
  weight s pc' + sem_value s sems' ≤ weight s pc + sem_value s sems.
Proof.
  unfold weight, holds, sem_value.
  destruct pc as [|[|stage rest]|stage rest|stage rest|stage rest
                  |stage [|cmd cmds] rest|stage msg rest|stage ok rest|b];
    cbn; try done.
  - by intros [= <- <- <-].
  - destruct (sems !! stage) as [[|n]|] eqn:E; try done.
    intros [= <- <- <-]. cbn.
    destruct (decide (stage = s)) as [->|Hne].
    + rewrite lookup_insert_eq, E. cbn. rewrite bool_decide_eq_true_2 by done. lia.
    + rewrite lookup_insert_ne by done.
      rewrite bool_decide_eq_false_2 by congruence. lia.
  - case_decide; [by intros [= <- <- <-]|].
    destruct (partial_skip self stage); by intros [= <- <- <-].
  - by intros [= <- <- <-].
  - by intros [= <- <- <-].
  - by intros [= <- <- <-].
  - destruct (run_command _ _ _ _ _ _) as [[m|] w1]; by intros [= <- <- <-].
  - by intros [= <- <- <-].
  - intros [= <- <- <-].
    assert (weight s (if ok then AtLoop rest else Finished false) = 0) as Hz
      by (by destruct ok).
    unfold weight, holds in Hz.
    destruct (bool_decide (held (if ok then AtLoop rest else Finished false) = Some s));
      [done|].
    destruct (decide (stage = s)) as [->|Hne].
    + rewrite lookup_alter_eq. rewrite bool_decide_eq_true_2 by done.
      destruct (sems !! s); cbn; lia.
    + rewrite lookup_alter_ne by done. lia.
Qed.

Variable brands : list BrandInfo.
Variable max_workers : nat.

(** The two ways a task moves. *)
Lemma pool_step_inv i g g' :
  pool_step sys_executable spawn self batch_id brands max_workers i g = Some g' →
  ∃ pc, p_pcs g !! i = Some pc
        ∧ ((pc = Queued
            ∧ g' = mkPool (p_world g) (p_sems g) (<[i := AtLoop (stages self)]> (p_pcs g)))
           ∨ ∃ brand_info pc' w' sems',
               brands !! i = Some brand_info
               ∧ thread_step sys_executable spawn self batch_id brand_info pc
                   (p_world g) (p_sems g) = Some (pc', w', sems')
               ∧ g' = mkPool w' sems' (<[i := pc']> (p_pcs g))).
Proof.
  unfold pool_step.
  destruct (p_pcs g !! i) as [pc|] eqn:Hi; [|done].
  destruct (brands !! i) as [brand_info|] eqn:Hb; [|by destruct pc].
  intros H. exists pc. split; [done|].
  destruct pc;
    [ left; split; [done|]; destruct (_ && _); [|done]; by injection H as <-
    | right;
      match type of H with
      | match ?t with _ => _ end = _ =>
          destruct t as [[[pc' w'] sems']|] eqn:E; [|done]
      end;
      injection H as <-; by exists brand_info, pc', w', sems' .. ].
Qed.

(** The invariant: for every stage, the threads inside its block and the
    counter of its semaphore add up to at most what the semaphore started
    with. *)
Lemma pool_step_holders i g g' s :
  pool_step sys_executable spawn self batch_id brands max_workers i g = Some g' →
  holders s (p_pcs g') + sem_value s (p_sems g')
  ≤ holders s (p_pcs g) + sem_value s (p_sems g).
Proof.
  intros H. apply pool_step_inv in H as (pc & Hi & [[-> ->]|H]).
  - cbn [p_pcs p_sems].
    pose proof (holders_insert s (p_pcs g) i Queued (AtLoop (stages self)) Hi) as Hh.
    change (weight s Queued) with 0 in Hh.
    change (weight s (AtLoop (stages self))) with 0 in Hh. lia.
  - destruct H as (brand_info & pc' & w' & sems' & Hb & Hstep & ->). cbn [p_pcs p_sems].
    pose proof (holders_insert s (p_pcs g) i pc pc' Hi).
    pose proof (thread_step_weight _ _ _ _ _ _ _ s Hstep). lia.
Qed.

Lemma reachable_holders w g s :
  reachable sys_executable spawn self batch_id brands max_workers w g →
  holders s (p_pcs g) + sem_value s (p_sems g) ≤ 1.
Proof.
  unfold reachable. revert g. apply rtc_ind_r.
  2: intros g1 g2 Hrtc Hstep IH.
  - cbn [pool_init p_pcs p_sems]. rewrite holders_replicate_queued. apply stage_locks_binary.
  - destruct Hstep as [i g1 g2 Hstep].
    pose proof (pool_step_holders i g1 g2 s Hstep). lia.
Qed.

(** Whatever a schedule does is reachable. *)
Lemma run_schedule_reachable sched w g :
  reachable sys_executable spawn self batch_id brands max_workers w g →
  reachable sys_executable spawn self batch_id brands max_workers w
    (run_schedule sys_executable spawn self batch_id brands max_workers sched g).
Proof.
  revert g. induction sched as [|i sched IH]; intros g Hg; cbn; [done|].
  apply IH.
  destruct (pool_step _ _ _ _ _ _ i g) as [g'|] eqn:E; cbn; [|done].
  eapply rtc_r; [exact Hg|]. by econstructor.
Qed.

End PoolFacts.

Lemma new_events_emit e w : new_events w (emit e w) = [e].
Proof. by apply new_events_app. Qed.

Lemma new_events_refl w : new_events w w = [].
Proof. apply new_events_app. by rewrite app_nil_r. Qed.

(** A thread touches the record or the worker of a stage only inside the
    block of that stage. *)
Lemma thread_step_access sys_executable spawn self batch_id brand_info pc w sems pc' w' sems' :
  thread_step sys_executable spawn self batch_id brand_info pc w sems
  = Some (pc', w', sems') →
  Forall (λ e, ∀ s, stage_access e = Some s → holds s pc = true) (new_events w w').
Proof.
  assert (∀ stage e, (∀ s, stage_access e = Some s → s = stage) →
                     Forall (λ e, ∀ s, stage_access e = Some s →
                                       holds s (Entered stage []) = true) [e]) as Hone.
  { intros stage e He. constructor; [|done]. intros s Hs. apply He in Hs as ->.
    unfold holds. by apply bool_decide_eq_true. }
  destruct pc as [|[|stage rest]|stage rest|stage rest|stage rest
                  |stage [|cmd cmds] rest|stage msg rest|stage ok rest|b];
    cbn; try done.
  - intros [= <- <- <-]. by rewrite new_events_refl.
  - destruct (sems !! stage) as [[|n]|]; try done.
    intros [= <- <- <-]. rewrite new_events_emit. constructor; [|done]. by intros s [=].
  - case_decide; [|destruct (partial_skip self stage)];
      intros [= <- <- <-]; rewrite new_events_emit;
      apply (Hone stage); by intros s [= <-].
  - intros [= <- <- <-].
    rewrite (new_events_app _ _ _ (update_stage_status_trace _ _ _ _ _ _ _ _)).
    apply (Hone stage); by intros s [= <-].
  - intros [= <- <- <-].
    rewrite (new_events_app _ _ _ (update_stage_status_trace _ _ _ _ _ _ _ _)).
    apply (Hone stage); by intros s [= <-].
  - intros [= <- <- <-].
    rewrite (new_events_app _ _ _ (update_stage_status_trace _ _ _ _ _ _ _ _)).
    apply (Hone stage); by intros s [= <-].
  - destruct (run_command_spec spawn (mall_name brand_info)
                (mall_brand_name_en brand_info) stage cmd w) as [Hw _].
    destruct (run_command _ _ _ _ _ _) as [[m|] w1]; cbn in Hw; subst w1;
      intros [= <- <- <-]; rewrite new_events_emit;
      apply (Hone stage); by intros s [= <-].
  - intros [= <- <- <-].
    rewrite (new_events_app _ _ _ (update_stage_status_trace _ _ _ _ _ _ _ _)).
    apply (Hone stage); by intros s [= <-].
  - intros [= <- <- <-]. rewrite new_events_emit. constructor; [|done]. by intros s [=].
Qed.

(** C1. In every state the pool can reach, for every stage: the counter of
    its semaphore is 0 or 1; two distinct tasks are never both inside its
    block; and while a task is inside, the counter is 0.  A task reads or
    writes the record of a stage and launches its units only inside that
    block.  Two tasks can be inside the blocks of two different stages at the
    same time: with two brands whose units succeed, AMI is in CONVERT while
    NIKE is in COLLECT. *)
Theorem one_entity_per_stage :
  (∀ sys_executable spawn self batch_id brands max_workers w g,
     reachable sys_executable spawn self batch_id brands max_workers w g →
     ∀ s,
       sem_value s (p_sems g) ≤ 1
       ∧ (∀ i j p q, i ≠ j → p_pcs g !! i = Some p → p_pcs g !! j = Some q →
                     holds s p = true → holds s q = false)
       ∧ (∀ i p, p_pcs g !! i = Some p → holds s p = true → sem_value s (p_sems g) = 0))
  ∧ (∀ sys_executable spawn self batch_id brand_info pc w sems pc' w' sems',
       thread_step sys_executable spawn self batch_id brand_info pc w sems
       = Some (pc', w', sems') →
       Forall (λ e, ∀ s, stage_access e = Some s → holds s pc = true) (new_events w w'))
  ∧ ∃ g p q,
      reachable "python" spawn_ok orch_full "B1" [brand_ami; brand_nike] 2 world0 g
      ∧ p_pcs g !! 0 = Some p ∧ p_pcs g !! 1 = Some q
      ∧ holds "CONVERT" p = true ∧ holds "COLLECT" q = true.
Proof.
  split; [|split].
  - intros sys_executable spawn self batch_id brands max_workers w g Hg s.
    pose proof (reachable_holders _ _ _ _ _ _ _ _ s Hg) as Hinv.
    split; [lia|]. split.
    + intros i j p q Hne Hi Hj Hp.
      pose proof (holders_two s _ _ _ _ _ Hne Hi Hj) as H2.
      unfold weight in H2. rewrite Hp in H2.
      destruct (holds s q); [lia|done].
    + intros i p Hi Hp.
      pose proof (holders_insert s _ _ _ Queued Hi) as H1.
      assert (weight s p = 1) as Hw by (unfold weight; by rewrite Hp).
      change (weight s Queued) with 0 in H1. lia.
  - intros *. apply thread_step_access.
  - exists (run_schedule "python" spawn_ok orch_full "B1" [brand_ami; brand_nike] 2
              [0; 0; 0; 0; 0; 0; 0; 0; 1; 1]
              (pool_init orch_full [brand_ami; brand_nike] world0)).
    eexists _, _. split; [apply run_schedule_reachable; apply rtc_refl|].
    vm_compute. repeat split; reflexivity.
Qed.

(** AMI has taken the semaphore of COLLECT; NIKE, which waits for it, is not
    inside the block. *)
Lemma one_entity_per_stage_witness :
  let g := run_schedule "python" spawn_ok orch_full "B1" [brand_ami; brand_nike] 2
             [0; 1; 0] (pool_init orch_full [brand_ami; brand_nike] world0) in
  p_pcs g !! 0 = Some (Entered "COLLECT" ["CONVERT"; "IMAGE"; "PRICE"; "REGISTER"])
  ∧ holds "COLLECT" (AtLoop ALL_STAGES) = false.
Proof.
  cbn zeta. split; [vm_compute; reflexivity|].
  destruct one_entity_per_stage as [Hsafe _].
  apply (proj1 (proj2 (Hsafe "python" spawn_ok orch_full "B1" [brand_ami; brand_nike] 2
           world0 _
           (run_schedule_reachable "python" spawn_ok orch_full "B1"
              [brand_ami; brand_nike] 2 [0; 1; 0] world0 _ (rtc_refl _ _))
           "COLLECT"))
         0 1 (Entered "COLLECT" ["CONVERT"; "IMAGE"; "PRICE"; "REGISTER"])
         (AtLoop ALL_STAGES)).
  - lia.
  - vm_compute. reflexivity.
  - vm_compute. reflexivity.
  - vm_compute. reflexivity.
Defined.

(** ** Order of the actions of a stage *)

Section StageOrder.

Variable sys_executable : string.
Variable spawn : nat → list string → ProcOutcome.
Variable self : Orchestrator.
Variable batch_id : string.
Variable brand_info : BrandInfo.


(** The actions of a turn of the loop that goes to the worker: the semaphore
    is taken, the status read, the record marked ['RUNNING'], a prefix of
    the units launched, at least one when the stage has units, the outcome
    written and the semaphore given back. *)
Lemma process_stage_worker stage w :
  stored_status (pipeline_control w) (key_of batch_id brand_info stage) ≠ "DONE" →
  partial_skip self stage = false →
  let cmds := commands_for sys_executable stage (target_brand_name brand_info stage) in
  let r := process_stage sys_executable spawn self batch_id brand_info stage w in
  ∃ n msg,
    trace r.2
    = trace w
      ++ [EvAcquire stage;
          EvGetStatus (mall_name brand_info) (mall_brand_name_en brand_info) stage
            (stored_status (pipeline_control w) (key_of batch_id brand_info stage));
          EvSetStatus (mall_name brand_info) (mall_brand_name_en brand_info) stage "RUNNING" None]
      ++ (EvExec (mall_name brand_info) (mall_brand_name_en brand_info) stage <$> take n cmds)
      ++ [EvSetStatus (mall_name brand_info) (mall_brand_name_en brand_info) stage (if r.1 then "DONE" else "ERROR") msg;
          EvRelease stage]
    ∧ (cmds ≠ [] → 0 < n).
Proof.
  intros Hnd Hskip. cbn zeta.
  unfold process_stage, stage_body, get_stage_status. cbn zeta.
  unfold key_of in Hnd. cbn [pipeline_control emit].
  rewrite decide_False by done. rewrite Hskip.
  match goal with
  | |- context [execute_worker _ _ _ _ _ _ _ ?t ?w0] =>
      pose proof (execute_worker_spec sys_executable spawn self batch_id (mall_name brand_info) (mall_brand_name_en brand_info)
                    stage t w0) as H;
      cbn zeta in H;
      destruct (execute_worker sys_executable spawn self batch_id
                  (mall_name brand_info) (mall_brand_name_en brand_info) stage t w0)
        as [ok w1] eqn:E
  end.
  cbn [fst snd] in *.
  destruct H as (n & msg & Ht & _ & Hcase).
  exists n, msg. cbn [trace emit]. rewrite Ht. cbn [trace emit].
  split.
  - rewrite <- !app_assoc. cbn. by rewrite <- !app_assoc.
  - intros Hne. destruct ok.
    + destruct Hcase as [-> _].
      destruct (commands_for _ _ _); [done|cbn; lia].
    + destruct Hcase as (i & cmd & -> & _). lia.
Qed.

(** C8, as the code has it.  For a stage that is neither ['DONE'] nor
    skipped by the PARTIAL policy, the turn of the loop first takes the
    semaphore of the stage, then (the status read) marks the record
    ['RUNNING'], then launches units of the worker and writes the outcome,
    and gives the semaphore back last.  In the pool, whatever the other
    tasks do: the task that writes a ['RUNNING'] mark for a stage is inside
    the block of that stage, the counter of the semaphore is 0 and no other
    task is inside; and a task that waits for a semaphore makes no action at
    all, so it writes no mark while it waits. *)
Theorem running_mark_follows_acquire stage w :
  stored_status (pipeline_control w) (key_of batch_id brand_info stage) ≠ "DONE" →
  partial_skip self stage = false →
  let cmds := commands_for sys_executable stage (target_brand_name brand_info stage) in
  let r := process_stage sys_executable spawn self batch_id brand_info stage w in
  (∃ n msg,
     trace r.2
     = trace w
       ++ [EvAcquire stage;
           EvGetStatus (mall_name brand_info) (mall_brand_name_en brand_info) stage
             (stored_status (pipeline_control w) (key_of batch_id brand_info stage));
           EvSetStatus (mall_name brand_info) (mall_brand_name_en brand_info) stage "RUNNING" None]
       ++ (EvExec (mall_name brand_info) (mall_brand_name_en brand_info) stage <$> take n cmds)
       ++ [EvSetStatus (mall_name brand_info) (mall_brand_name_en brand_info) stage (if r.1 then "DONE" else "ERROR") msg;
           EvRelease stage])
  ∧ (∀ brands max_workers w0 g i g',
       reachable sys_executable spawn self batch_id brands max_workers w0 g →
       pool_step sys_executable spawn self batch_id brands max_workers i g = Some g' →
       ∀ m b s msg,
         EvSetStatus m b s "RUNNING" msg ∈ new_events (p_world g) (p_world g') →
         (∃ pc, p_pcs g !! i = Some pc ∧ holds s pc = true)
         ∧ sem_value s (p_sems g) = 0
         ∧ ∀ j q, j ≠ i → p_pcs g !! j = Some q → holds s q = false)
  ∧ ∀ brands max_workers g j s rest,
      p_pcs g !! j = Some (AtLoop (s :: rest)) →
      sem_value s (p_sems g) = 0 →
      pool_step sys_executable spawn self batch_id brands max_workers j g = None.
Proof.
  intros Hnd Hskip. cbn zeta. split; [|split].
  - destruct (process_stage_worker stage w Hnd Hskip) as (n & msg & Ht & _).
    by exists n, msg.
  - intros brands max_workers w0 g i g' Hg Hstep m b s msg Hin.
    pose proof (reachable_holders _ _ _ _ _ _ _ _ s Hg) as Hinv.
    apply pool_step_inv in Hstep as (pc & Hi & [[-> ->]|H]).
    { cbn [p_world] in Hin. rewrite new_events_refl in Hin. by apply elem_of_nil in Hin. }
    destruct H as (bi & pc' & w' & sems' & Hb & Hthread & ->). cbn [p_world] in Hin.
    pose proof (thread_step_access _ _ _ _ _ _ _ _ _ _ _ Hthread) as Hacc.
    rewrite Forall_forall in Hacc. specialize (Hacc _ Hin s eq_refl).
    assert (weight s pc = 1) as Hw by (unfold weight; by rewrite Hacc).
    split; [by exists pc|]. split.
    + pose proof (holders_insert s _ _ _ Queued Hi) as H1.
      change (weight s Queued) with 0 in H1. lia.
    + intros j q Hne Hj.
      pose proof (holders_two s _ _ _ _ _ Hne Hj Hi) as H2.
      unfold weight in H2 at 1. destruct (holds s q); [lia|done].
  - intros brands max_workers g j s rest Hj Hsem.
    unfold pool_step. rewrite Hj. destruct (brands !! j); [|done]. cbn.
    unfold sem_value in Hsem. by destruct (p_sems g !! s) as [[|n]|].
Qed.


End StageOrder.

(** A FULL run reaches the COLLECT stage of AMI with no record yet.  In the
    pool, AMI is about to mark its COLLECT record while NIKE waits for the
    semaphore: AMI is inside the block, NIKE is not. *)
Lemma running_mark_follows_acquire_witness :
  let g := run_schedule "python" spawn_ok orch_full "B1" [brand_ami; brand_nike] 2
             [0; 1; 0; 0] (pool_init orch_full [brand_ami; brand_nike] world0) in
  (∃ n msg,
     trace (process_stage "python" spawn_ok orch_full "B1" brand_ami "COLLECT" world0).2
     = [EvAcquire "COLLECT";
        EvGetStatus "okmall" "AMI" "COLLECT" "PENDING";
        EvSetStatus "okmall" "AMI" "COLLECT" "RUNNING" None]
       ++ (EvExec "okmall" "AMI" "COLLECT"
             <$> take n [["python"; "okmall_all_brands_collector.py"; "--brand"; "AMI"]])
       ++ [EvSetStatus "okmall" "AMI" "COLLECT"
             (if (process_stage "python" spawn_ok orch_full "B1" brand_ami "COLLECT" world0).1
              then "DONE" else "ERROR") msg;
           EvRelease "COLLECT"])
  ∧ p_pcs g !! 1 = Some (AtLoop ALL_STAGES)
  ∧ sem_value "COLLECT" (p_sems g) = 0
  ∧ holds "COLLECT" (AtLoop ALL_STAGES) = false.
Proof.
  cbn zeta.
  destruct (running_mark_follows_acquire "python" spawn_ok orch_full "B1" brand_ami
              "COLLECT" world0) as (Hturn & Hpool & _).
  - vm_compute. discriminate.
  - vm_compute. reflexivity.
  - split; [exact Hturn|]. split; [vm_compute; reflexivity|].
    destruct (Hpool [brand_ami; brand_nike] 2 world0
                (run_schedule "python" spawn_ok orch_full "B1" [brand_ami; brand_nike] 2
                   [0; 1; 0; 0] (pool_init orch_full [brand_ami; brand_nike] world0))
                0
                (run_schedule "python" spawn_ok orch_full "B1" [brand_ami; brand_nike] 2
                   [0; 1; 0; 0; 0] (pool_init orch_full [brand_ami; brand_nike] world0))
                (run_schedule_reachable "python" spawn_ok orch_full "B1"
                   [brand_ami; brand_nike] 2 [0; 1; 0; 0] world0 _ (rtc_refl _ _))
                ltac:(vm_compute; reflexivity)
                "okmall" "AMI" "COLLECT" None) as (_ & Hsem & Hothers).
    + vm_compute. apply list_elem_of_here.
    + split; [exact Hsem|].
      apply (Hothers 1 (AtLoop ALL_STAGES)); [lia|vm_compute; reflexivity].
Defined.


(** C8, as stated, fails. In the turn of the loop for COLLECT the ['RUNNING']
    mark is not recorded before the semaphore is taken; and once AMI holds the
    semaphore of COLLECT, NIKE waits for it with its COLLECT record still
    absent, not ['RUNNING']. *)
Lemma running_mark_before_acquire_counterexample :
  ¬ marks_running_before_acquire brand_ami "COLLECT"
      (new_events world0
         (process_stage "python" spawn_ok orch_full "B1" brand_ami "COLLECT" world0).2)
  ∧ ∃ g, reachable "python" spawn_ok orch_full "B1" [brand_ami; brand_nike] 2 world0 g
         ∧ ¬ waiting_shows_running "B1" [brand_ami; brand_nike] g.
Proof.
  split.
  - intros (i & j & Hlt & Hi & Hj).
    assert (new_events world0
              (process_stage "python" spawn_ok orch_full "B1" brand_ami "COLLECT" world0).2
            = [EvAcquire "COLLECT";
               EvGetStatus "okmall" "AMI" "COLLECT" "PENDING";
               EvSetStatus "okmall" "AMI" "COLLECT" "RUNNING" None;
               EvExec "okmall" "AMI" "COLLECT"
                 ["python"; "okmall_all_brands_collector.py"; "--brand"; "AMI"];
               EvSetStatus "okmall" "AMI" "COLLECT" "DONE" None;
               EvRelease "COLLECT"]) as E by (vm_compute; reflexivity).
    rewrite E in Hi, Hj.
    destruct j as [|[|[|[|[|[|j]]]]]]; cbn in Hj; try discriminate. lia.
  - exists (run_schedule "python" spawn_ok orch_full "B1" [brand_ami; brand_nike] 2
              [0; 1; 0] (pool_init orch_full [brand_ami; brand_nike] world0)).
    split; [apply run_schedule_reachable; apply rtc_refl|].
    intros H.
    specialize (H 1 brand_nike "COLLECT" ["CONVERT"; "IMAGE"; "PRICE"; "REGISTER"]).
    assert (stored_status
              (pipeline_control
                 (p_world
                    (run_schedule "python" spawn_ok orch_full "B1" [brand_ami; brand_nike] 2
                       [0; 1; 0] (pool_init orch_full [brand_ami; brand_nike] world0))))
              (key_of "B1" brand_nike "COLLECT") = "PENDING") as E
      by (vm_compute; reflexivity).
    rewrite E in H. discriminate H; vm_compute; reflexivity.
Qed.

(** ** The batch registry *)

Section BatchFacts.

Variable now : nat → DateTime.
Variable self : Orchestrator.

Lemma resumable_spec row :
  resumable (run_mode self) row = true ↔ is_running_batch (run_mode self) row.
Proof.
  unfold resumable, is_running_batch.
  rewrite andb_true_iff, !bool_decide_eq_true. done.
Qed.

Lemma get_or_create_batch_found w row :
  List.find (resumable (run_mode self)) (pipeline_batches w) = Some row →
  get_or_create_batch now self w
  = (b_batch_id row, emit (EvFindBatch (run_mode self) (Some (b_batch_id row))) w).
Proof. unfold get_or_create_batch. by intros ->. Qed.

Lemma get_or_create_batch_new w :
  List.find (resumable (run_mode self)) (pipeline_batches w) = None →
  get_or_create_batch now self w
  = (strftime (now (S (clock w))),
     emit (EvInsertBatch (strftime (now (S (clock w)))) (run_mode self))
       (set_batches
          (pipeline_batches w
           ++ [mkBatchRow (strftime (now (S (clock w)))) (run_mode self) "RUNNING"
                          ColDefault ColDefault ColDefault])
          (emit (EvFindBatch (run_mode self) None) w))).
Proof. unfold get_or_create_batch. by intros ->. Qed.

(** The row the lookup returns depends on identifiers, modes and statuses
    only. *)
Lemma find_running_ident l1 l2 :
  batch_ident <$> l1 = batch_ident <$> l2 →
  b_batch_id <$> List.find (resumable (run_mode self)) l1 = b_batch_id <$> List.find (resumable (run_mode self)) l2.
Proof.
  revert l2. induction l1 as [|r1 l1 IH]; intros [|r2 l2]; cbn; try done.
  intros [= Hid Hmode Hst Hrest].
  assert (resumable (run_mode self) r1 = resumable (run_mode self) r2) as -> by (unfold resumable; by rewrite Hmode, Hst).
  destruct (resumable (run_mode self) r2); cbn; [by rewrite Hid|by apply IH].
Qed.

Lemma find_running_app_new l row :
  List.find (resumable (run_mode self)) l = None → resumable (run_mode self) row = true →
  List.find (resumable (run_mode self)) (l ++ [row]) = Some row.
Proof.
  intros Hl Hrow. induction l as [|r l IH]; cbn in *; [by rewrite Hrow|].
  destruct (resumable (run_mode self) r); [done|by apply IH].
Qed.

(** The identifier returned is that of the first resumable row of the world
    the call leaves. *)
Lemma get_or_create_batch_first w :
  b_batch_id <$> List.find (resumable (run_mode self)) (pipeline_batches (get_or_create_batch now self w).2)
  = Some (get_or_create_batch now self w).1.
Proof.
  destruct (List.find (resumable (run_mode self)) (pipeline_batches w)) as [row|] eqn:E.
  - rewrite (get_or_create_batch_found _ _ E). cbn. by rewrite E.
  - rewrite (get_or_create_batch_new _ E). cbn.
    rewrite find_running_app_new; [done|done|].
    unfold resumable. cbn. by rewrite !bool_decide_eq_true_2.
Qed.

(** C6. With a ['RUNNING'] row of the run mode in the table,
    [get_or_create_batch] returns the identifier of such a row and inserts
    nothing.  With none, it appends one row, ['RUNNING'] with the run mode,
    under the identifier [strftime] makes of the current time, and returns
    that identifier.  A later call, in any world whose batch rows have the
    identifiers, modes and statuses the first call left, returns the same
    identifier and inserts nothing. *)
Theorem get_or_create_batch_resumes w :
  let r := get_or_create_batch now self w in
  ((∃ row, row ∈ pipeline_batches w ∧ is_running_batch (run_mode self) row) →
   pipeline_batches r.2 = pipeline_batches w
   ∧ ∃ row, row ∈ pipeline_batches w ∧ is_running_batch (run_mode self) row
            ∧ r.1 = b_batch_id row)
  ∧ ((∀ row, row ∈ pipeline_batches w → ¬ is_running_batch (run_mode self) row) →
     r.1 = strftime (now (S (clock w)))
     ∧ pipeline_batches r.2
       = pipeline_batches w
         ++ [mkBatchRow r.1 (run_mode self) "RUNNING" ColDefault ColDefault ColDefault])
  ∧ ∀ w', batch_ident <$> pipeline_batches w' = batch_ident <$> pipeline_batches r.2 →
          (get_or_create_batch now self w').1 = r.1
          ∧ pipeline_batches (get_or_create_batch now self w').2 = pipeline_batches w'.
Proof.
  cbn zeta. split; [|split].
  - intros (row & Hin & Hrun).
    destruct (List.find (resumable (run_mode self)) (pipeline_batches w)) as [found|] eqn:E.
    + rewrite (get_or_create_batch_found _ _ E). cbn. split; [done|].
      apply find_some in E as [Hfin Hfrun].
      exists found. split; [by apply list_elem_of_In|].
      split; [by apply resumable_spec|done].
    + exfalso. apply list_elem_of_In in Hin.
      pose proof (find_none _ _ E _ Hin) as Hno.
      apply resumable_spec in Hrun. congruence.
  - intros Hnone.
    destruct (List.find (resumable (run_mode self)) (pipeline_batches w)) as [found|] eqn:E.
    + exfalso. apply find_some in E as [Hfin Hfrun].
      apply (Hnone found); [by apply list_elem_of_In|by apply resumable_spec].
    + by rewrite (get_or_create_batch_new _ E).
  - intros w' Hident.
    pose proof (get_or_create_batch_first w) as Hfirst.
    rewrite <- (find_running_ident _ _ Hident) in Hfirst.
    destruct (List.find (resumable (run_mode self)) (pipeline_batches w')) as [row|] eqn:E; [|done].
    rewrite (get_or_create_batch_found _ _ E). cbn in *. split; [congruence|done].
Qed.

End BatchFacts.

(** A first FULL run on an empty table, then a restart after the pipelines ran. *)
Lemma get_or_create_batch_resumes_witness :
  (get_or_create_batch wall orch_full world0).1 = "20260128_093001"
  ∧ (get_or_create_batch wall orch_full
       (process_brand_pipeline "python" spawn_ami_convert_fails orch_full
          "20260128_093001" brand_ami
          (get_or_create_batch wall orch_full world0).2).2).1
    = (get_or_create_batch wall orch_full world0).1.
Proof.
  destruct (get_or_create_batch_resumes wall orch_full world0) as (_ & Hnew & Hagain).
  split.
  - apply Hnew. intros row Hrow. by apply elem_of_nil in Hrow.
  - apply Hagain. vm_compute. reflexivity.
Defined.

(** ** The scheduler with nothing to schedule *)

Lemma total_row_status batch_id cnt (rows : list BatchRow) :
  b_status <$> (total_row batch_id cnt <$> rows) = b_status <$> rows.
Proof.
  induction rows as [|row rows IH]; csimpl; [done|].
  rewrite IH. f_equal. unfold total_row. by case_decide.
Qed.

(** C10. When no catalogue row passes the filters, [run] ends in the fatal
    branch with the [ValueError] of a pool of width 0: after the batch lookup,
    the catalogue query and the write of [total_brands] nothing is recorded,
    so no stage is touched and the batch is not closed; the stage records are
    as they were, every batch row keeps the status the lookup left, and the
    row of the batch in use is still ['RUNNING']. *)
Theorem empty_target_list_is_fatal sys_executable spawn now upper UPPER self sched w :
  List.filter (is_target upper UPPER self) (mall_brands w) = [] →
  let batch_id := (get_or_create_batch now self w).1 in
  let w1 := (get_or_create_batch now self w).2 in
  ∃ w',
    run sys_executable spawn now upper UPPER self sched w
    = Some (Fatal (ValueError "max_workers must be greater than 0"), w')
    ∧ new_events w1 w' = [EvListBrands 0; EvSetTotal batch_id 0]
    ∧ Forall (λ e, is_finish e = false ∧ stage_access e = None
                   ∧ ∀ s, e ≠ EvAcquire s) (new_events w w')
    ∧ pipeline_control w' = pipeline_control w
    ∧ b_status <$> pipeline_batches w' = b_status <$> pipeline_batches w1
    ∧ ∃ row, row ∈ pipeline_batches w' ∧ b_batch_id row = batch_id
             ∧ b_status row = "RUNNING" ∧ b_run_mode row = run_mode self.
Proof.
  intros Hempty. cbn zeta. unfold run.
  assert (mall_brands (get_or_create_batch now self w).2 = mall_brands w) as Hcat.
  { unfold get_or_create_batch. by destruct (List.find _ _). }
  assert (pipeline_control (get_or_create_batch now self w).2 = pipeline_control w) as Hctl.
  { unfold get_or_create_batch. by destruct (List.find _ _). }
  assert (∃ evs, trace (get_or_create_batch now self w).2 = trace w ++ evs
                 ∧ Forall (λ e, is_finish e = false ∧ stage_access e = None
                                ∧ ∀ s, e ≠ EvAcquire s) evs) as (evs & Htr & Hevs).
  { unfold get_or_create_batch. destruct (List.find _ _); cbn.
    - eexists [_]. split; [done|]. by repeat constructor.
    - eexists [_; _]. split; [by rewrite <- app_assoc|]. by repeat constructor. }
  pose proof (get_or_create_batch_first now self w) as Hfirst.
  destruct (get_or_create_batch now self w) as [batch_id w1] eqn:E. cbn [fst snd] in *.
  unfold get_target_brands. rewrite Hcat, Hempty. cbn.
  eexists. split; [reflexivity|].
  split; [|split; [|split; [|split]]].
  - unfold new_events, set_total_brands. cbn. rewrite <- app_assoc.
    by rewrite drop_app_length.
  - unfold new_events, set_total_brands. cbn. rewrite Htr, <- !app_assoc.
    rewrite drop_app_length. apply Forall_app. split; [done|]. by repeat constructor.
  - done.
  - apply total_row_status.
  - destruct (List.find _ (pipeline_batches w1)) as [row|] eqn:F; [|done].
    injection Hfirst as Hid.
    apply find_some in F as [Hin Hrun].
    apply andb_true_iff in Hrun as [Hst Hmode].
    apply bool_decide_eq_true in Hst, Hmode.
    exists (total_row batch_id 0 row). split.
    + apply list_elem_of_fmap. exists row. split; [done|by apply list_elem_of_In].
    + unfold total_row. rewrite decide_True by done. done.
Qed.

(** Both brands of the catalogue are excluded: the run is fatal. *)
Lemma empty_target_list_is_fatal_witness :
  ∃ w', run "python" spawn_ok wall ascii_upper ascii_upper
          (mkOrchestrator "FULL" None None ["AMI"; "NIKE"] ALL_STAGES "REGISTER")
          [0; 1] world0
        = Some (Fatal (ValueError "max_workers must be greater than 0"), w').
Proof.
  destruct (empty_target_list_is_fatal "python" spawn_ok wall ascii_upper ascii_upper
              (mkOrchestrator "FULL" None None ["AMI"; "NIKE"] ALL_STAGES "REGISTER")
              [0; 1] world0) as (w' & Hrun & _).
  - vm_compute. reflexivity.
  - by exists w'.
Defined.

(** ** A thread on its own is [process_brand_pipeline] *)

Lemma release_after_acquire (sems : gmap string nat) s n :
  sems !! s = Some (S n) → alter S s (<[s := n]> sems) = sems.
Proof.
  intros Hs. apply map_eq. intros k.
  destruct (decide (s = k)) as [<-|Hne].
  - by rewrite lookup_alter_eq, lookup_insert_eq, Hs.
  - by rewrite lookup_alter_ne, lookup_insert_ne.
Qed.

Lemma stage_locks_lookup self s : s ∈ stages self → stage_locks self !! s = Some 1.
Proof.
  unfold stage_locks. induction (stages self) as [|x l IH]; intros Hs.
  - by apply elem_of_nil in Hs.
  - csimpl. destruct (decide (x = s)) as [->|Hne].
    + by rewrite lookup_insert_eq.
    + rewrite lookup_insert_ne by done. apply IH.
      apply elem_of_cons in Hs as [->|Hs]; [done|exact Hs].
Qed.

Section SoloThread.

Variable sys_executable : string.
Variable spawn : nat → list string → ProcOutcome.
Variable self : Orchestrator.
Variable batch_id : string.
Variable brand_info : BrandInfo.


Lemma solo_commands stage cmds rest w sems :
  let r := run_commands spawn self batch_id (mall_name brand_info) (mall_brand_name_en brand_info) stage cmds w in
  ∃ n, ∀ m, thread_run sys_executable spawn self batch_id brand_info (n + m) (Cmds stage cmds rest) w sems
            = thread_run sys_executable spawn self batch_id brand_info m (Leaving stage r.1 rest) r.2 sems.
Proof.
  revert w. induction cmds as [|cmd cmds IH]; intros w; cbn zeta.
  - exists 1. intros m. done.
  - cbn [run_commands].
    destruct (run_command spawn (mall_name brand_info) (mall_brand_name_en brand_info) stage cmd w) as [[msg|] w1] eqn:E.
    + exists 2. intros m. cbn. by rewrite E.
    + destruct (IH w1) as [n Hn]. exists (S n). intros m.
      cbn. rewrite E. apply Hn.
Qed.

Lemma solo_stage stage rest w sems k :
  sems !! stage = Some (S k) →
  let r := process_stage sys_executable spawn self batch_id brand_info stage w in
  ∃ n, ∀ m, thread_run sys_executable spawn self batch_id brand_info (n + m) (AtLoop (stage :: rest)) w sems
            = thread_run sys_executable spawn self batch_id brand_info m (if r.1 then AtLoop rest else Finished false) r.2 sems.
Proof.
  intros Hsem. cbn zeta.
  unfold process_stage, stage_body, get_stage_status, execute_worker. cbn zeta.
  case_decide as Hd.
  - exists 3. intros m. cbn. rewrite Hsem. cbn.
    rewrite decide_True by done. cbn.
    by rewrite (release_after_acquire _ _ _ Hsem).
  - destruct (partial_skip self stage) eqn:Hskip.
    + exists 4. intros m. cbn. rewrite Hsem. cbn.
      rewrite decide_False by done. rewrite Hskip. cbn.
      by rewrite (release_after_acquire _ _ _ Hsem).
    + match goal with
      | |- context [run_commands _ _ _ _ _ _ ?c ?w0] =>
          destruct (solo_commands stage c rest w0 (<[stage := k]> sems)) as [n Hn];
          destruct (run_commands spawn self batch_id (mall_name brand_info)
                      (mall_brand_name_en brand_info) stage c w0) as [ok w1] eqn:E
      end.
      exists (3 + (n + 1)). intros m. cbn. rewrite Hsem. cbn.
      rewrite decide_False by done. rewrite Hskip. cbn.
      rewrite <- Nat.add_assoc. rewrite Hn. cbn.
      by rewrite (release_after_acquire _ _ _ Hsem).
Qed.

Lemma solo_pipeline todo w sems :
  (∀ s, s ∈ todo → ∃ k, sems !! s = Some (S k)) →
  let r := pipeline_loop sys_executable spawn self batch_id brand_info todo w in
  ∃ n, ∀ m, thread_run sys_executable spawn self batch_id brand_info (n + m) (AtLoop todo) w sems = (Finished r.1, r.2, sems).
Proof.
  revert w. induction todo as [|stage rest IH]; intros w Hsems; cbn zeta.
  - exists 1. intros m. cbn. by destruct m.
  - destruct (Hsems stage (list_elem_of_here _ _)) as [k Hk].
    destruct (solo_stage stage rest w sems k Hk) as [n Hn]. cbn zeta in Hn.
    cbn [pipeline_loop].
    destruct (process_stage sys_executable spawn self batch_id brand_info stage w)
      as [[|] w1]; cbn [fst snd] in *.
    + destruct (IH w1) as [n' Hn'].
      { intros s Hs. apply Hsems. by apply list_elem_of_further. }
      exists (n + n'). intros m. rewrite <- Nat.add_assoc, Hn. apply Hn'.
    + exists n. intros m. rewrite Hn. by destruct m.
Qed.

(** Alone in the pool, with every semaphore free, a thread does what
    [process_brand_pipeline] does and leaves every semaphore free. *)
Lemma solo_thread_refines w :
  ∃ n, thread_run sys_executable spawn self batch_id brand_info n (AtLoop (stages self)) w (stage_locks self)
       = (Finished (process_brand_pipeline sys_executable spawn self batch_id brand_info w).1,
          (process_brand_pipeline sys_executable spawn self batch_id brand_info w).2,
          stage_locks self).
Proof.
  destruct (solo_pipeline (stages self) w (stage_locks self)) as [n Hn].
  - intros s Hs. exists 0. by apply stage_locks_lookup.
  - exists n. specialize (Hn 0). by rewrite Nat.add_0_r in Hn.
Qed.

End SoloThread.

(** ** What the pool records *)

Section PoolTrace.

Variable sys_executable : string.
Variable spawn : nat → list string → ProcOutcome.
Variable self : Orchestrator.
Variable batch_id : string.

(** An action of a thread belongs to a stage of the run and writes to the
    record of its own entity at that stage only. *)
Lemma thread_step_evolves brand_info pc w sems pc' w' sems' :
  pc_ok sys_executable self brand_info pc →
  thread_step sys_executable spawn self batch_id brand_info pc w sems
  = Some (pc', w', sems') →
  pc_ok sys_executable self brand_info pc'
  ∧ evolves (λ e, ∃ s, s ∈ stages self ∧ about sys_executable brand_info s e)
            (λ k, ∃ s, s ∈ stages self ∧ k = key_of batch_id brand_info s) w w'.
Proof.
  intros [Hst Hcmds].
  assert (∀ stage w1, stage ∈ stages self →
            evolves (about sys_executable brand_info stage)
                    (λ k, k = key_of batch_id brand_info stage) w w1 →
            evolves (λ e, ∃ s, s ∈ stages self ∧ about sys_executable brand_info s e)
                    (λ k, ∃ s, s ∈ stages self ∧ k = key_of batch_id brand_info s) w w1)
    as Hlift.
  { intros stage w1 Hin. apply evolves_weaken.
    - intros e He. by exists stage.
    - intros k ->. by exists stage. }
  destruct pc as [|[|stage rest]|stage rest|stage rest|stage rest
                  |stage [|cmd cmds] rest|stage msg rest|stage ok rest|b];
    cbn in *; try done.
  - intros [= <- <- <-]. split; [split; [|done]|apply evolves_refl].
    intros s Hs. by apply elem_of_nil in Hs.
  - destruct (sems !! stage) as [[|n]|]; try done.
    intros [= <- <- <-]. split; [by split|].
    apply (Hlift stage); [apply Hst, list_elem_of_here|].
    apply evolves_emit. done.
  - assert (stage ∈ stages self) as Hin by apply Hst, list_elem_of_here.
    case_decide; [|destruct (partial_skip self stage)];
      intros [= <- <- <-]; (split; [by split|]);
      apply (Hlift stage _ Hin); apply evolves_emit; done.
  - intros [= <- <- <-]. split; [by split|].
    apply (Hlift stage); [apply Hst, list_elem_of_here|].
    apply evolves_update; done.
  - intros [= <- <- <-]. split; [by split|].
    apply (Hlift stage); [apply Hst, list_elem_of_here|].
    apply evolves_update; done.
  - intros [= <- <- <-]. split; [by split|].
    apply (Hlift stage); [apply Hst, list_elem_of_here|].
    apply evolves_update; done.
  - pose proof (run_command_evolves sys_executable spawn batch_id brand_info stage cmd w
                  (Hcmds cmd (list_elem_of_here _ _))) as Hev.
    destruct (run_command _ _ _ _ _ _) as [[m|] w1]; cbn in Hev;
      intros [= <- <- <-]; (split; [split; [done|]|
                                     apply (Hlift stage);
                                     [apply Hst, list_elem_of_here|exact Hev]]).
    + done.
    + intros c Hc. apply Hcmds. by apply list_elem_of_further.
  - intros [= <- <- <-]. split; [by split|].
    apply (Hlift stage); [apply Hst, list_elem_of_here|].
    apply evolves_update; done.
  - intros [= <- <- <-]. split.
    + split; [|by destruct ok].
      intros s Hs. apply Hst. destruct ok; cbn in Hs.
      * by apply list_elem_of_further.
      * by apply elem_of_nil in Hs.
    + apply (Hlift stage); [apply Hst, list_elem_of_here|].
      apply evolves_emit. done.
Qed.

Variable brands : list BrandInfo.
Variable max_workers : nat.

(** Every action the pool has recorded is an action of one of its brands at
    a stage of the run, the writes went to the records of those brands at
    those stages, and what was in the store kept its [started_at]. *)
Lemma reachable_evolves w g :
  reachable sys_executable spawn self batch_id brands max_workers w g →
  (∀ i pc brand_info, p_pcs g !! i = Some pc → brands !! i = Some brand_info →
                      pc_ok sys_executable self brand_info pc)
  ∧ evolves (λ e, ∃ b s, b ∈ brands ∧ s ∈ stages self ∧ about sys_executable b s e)
            (λ k, ∃ b s, b ∈ brands ∧ s ∈ stages self ∧ k = key_of batch_id b s)
            w (p_world g).
Proof.
  unfold reachable. revert g. apply rtc_ind_r.
  2: intros g1 g2 Hrtc Hstep [IHpc IHev].
  - split; [|apply evolves_refl].
    intros i pc b Hi _. cbn in Hi.
    apply lookup_replicate in Hi as [-> _]. split; [|done].
    intros s Hs. by apply elem_of_nil in Hs.
  - destruct Hstep as [i g1 g2 Hstep].
    apply pool_step_inv in Hstep as (pc & Hi & [[-> ->]|H]).
    + cbn [p_pcs p_world]. split; [|done].
      intros j pc' b Hj Hb.
      destruct (decide (i = j)) as [<-|Hne].
      * rewrite list_lookup_insert_eq in Hj by (by eapply lookup_lt_Some).
        injection Hj as <-. by split.
      * rewrite list_lookup_insert_ne in Hj by done. by eapply IHpc.
    + destruct H as (b & pc' & w' & sems' & Hb & Hthread & ->).
      cbn [p_pcs p_world].
      destruct (thread_step_evolves b pc _ _ _ _ _ (IHpc i pc b Hi Hb) Hthread)
        as [Hok Hev].
      split.
      * intros j pc'' b' Hj Hb'.
        destruct (decide (i = j)) as [<-|Hne].
        -- rewrite list_lookup_insert_eq in Hj by (by eapply lookup_lt_Some).
           injection Hj as <-. congruence.
        -- rewrite list_lookup_insert_ne in Hj by done. by eapply IHpc.
      * eapply evolves_trans; [exact IHev|].
        eapply evolves_weaken; [| |exact Hev].
        -- intros e (s & Hs & He). exists b, s.
           split; [by eapply list_elem_of_lookup_2|done].
        -- intros k (s & Hs & ->). exists b, s.
           split; [by eapply list_elem_of_lookup_2|done].
Qed.

End PoolTrace.

(** ** Truncation of the stage list *)

Lemma index_lookup x l i : index x l = Some i → l !! i = Some x.
Proof.
  revert i. induction l as [|y l IH]; intros i; cbn; [done|].
  case_decide as Hxy.
  - intros [= <-]. by subst.
  - destruct (index x l) as [j|]; cbn; [|done].
    intros [= <-]. cbn. by apply IH.
Qed.

Lemma last_take_lookup {A} (l : list A) i x : l !! i = Some x → last (take (S i) l) = Some x.
Proof.
  revert i. induction l as [|y l IH]; intros [|i] Hi; cbn in *; try done.
  specialize (IH i Hi). destruct l as [|z l]; [done|]. exact IH.
Qed.



Lemma done_brands_spec t batch_id stage brand :
  brand ∈ done_brands t batch_id stage
  ↔ ∃ mall row, t !! (batch_id, mall, brand, stage) = Some row ∧ c_status row = "DONE".
Proof.
  unfold done_brands. rewrite elem_of_list_to_set, list_elem_of_omap. split.
  - intros ([[[[b m] br] st] row] & Hin & Hf).
    apply elem_of_map_to_list in Hin. cbn in Hf.
    case_decide as Hc; [|done]. injection Hf as ->.
    destruct Hc as (-> & -> & Hs). by exists m, row.
  - intros (m & row & Hl & Hs). exists (batch_id, m, brand, stage, row).
    split; [by apply elem_of_map_to_list|]. cbn. by rewrite decide_True.
Qed.





(** ** The pool runs to completion *)

Lemma commands_for_length sys_executable stage target :
  length (commands_for sys_executable stage target) ≤ 2.
Proof. unfold commands_for. repeat case_decide; cbn; lia. Qed.

Lemma existsb_lookup {A} (f : A → bool) (l : list A) :
  existsb f l = true → ∃ i x, l !! i = Some x ∧ f x = true.
Proof.
  induction l as [|y l IH]; cbn; [done|].
  destruct (f y) eqn:E; cbn.
  - intros _. by exists 0, y.
  - intros H. destruct (IH H) as (i & x & Hi & Hx). by exists (S i), x.
Qed.

Lemma holders_none s pcs : existsb inside pcs = false → holders s pcs = 0.
Proof.
  unfold holders. induction pcs as [|pc pcs IH]; csimpl; [done|].
  intros [Hpc Hrest]%orb_false_iff. rewrite (IH Hrest).
  unfold weight, holds, inside in *. destruct (held pc); [done|].
  by rewrite bool_decide_eq_false_2.
Qed.

Lemma active_none pcs :
  existsb inside pcs = false → existsb at_loop pcs = false → active pcs = 0.
Proof.
  unfold active. induction pcs as [|pc pcs IH]; cbn; [done|].
  intros [Hi Hrest]%orb_false_iff [Ha Hrest']%orb_false_iff.
  destruct pc; cbn in *; try done; by apply IH.
Qed.

Lemma first_queued pcs :
  existsb is_queued pcs = true →
  ∃ i, pcs !! i = Some Queued
       ∧ forallb (λ pc, negb (is_queued pc)) (take i pcs) = true.
Proof.
  induction pcs as [|pc pcs IH]; cbn; [done|].
  destruct (is_queued pc) eqn:E; cbn.
  - intros _. exists 0. by destruct pc.
  - intros H. destruct (IH H) as (i & Hi & Hb). exists (S i). cbn. by rewrite E.
Qed.

Section PoolProgress.

Variable sys_executable : string.
Variable spawn : nat → list string → ProcOutcome.
Variable self : Orchestrator.
Variable batch_id : string.

(** Every action brings a thread closer to its return. *)
Lemma thread_step_measure brand_info pc w sems pc' w' sems' :
  thread_step sys_executable spawn self batch_id brand_info pc w sems
  = Some (pc', w', sems') →
  pc_measure self pc' < pc_measure self pc.
Proof.
  destruct pc as [|[|stage rest]|stage rest|stage rest|stage rest
                  |stage [|cmd cmds] rest|stage msg rest|stage ok rest|b];
    cbn; try done.
  - intros [= <- <- <-]. cbn. lia.
  - destruct (sems !! stage) as [[|n]|]; try done.
    intros [= <- <- <-]. cbn. lia.
  - case_decide; [|destruct (partial_skip self stage)];
      intros [= <- <- <-]; cbn; lia.
  - intros [= <- <- <-]. cbn. lia.
  - intros [= <- <- <-]. cbn.
    pose proof (commands_for_length sys_executable stage
                  (target_brand_name brand_info stage)). lia.
  - intros [= <- <- <-]. cbn. lia.
  - destruct (run_command _ _ _ _ _ _) as [[m|] w1];
      intros [= <- <- <-]; cbn; lia.
  - intros [= <- <- <-]. cbn. lia.
  - intros [= <- <- <-]. destruct ok; cbn; lia.
Qed.

(** A thread whose units all exit with status 0 does not enter the failure
    path. *)
Lemma thread_step_not_failed brand_info since pc w sems pc' w' sems' :
  pc_ok sys_executable self brand_info pc →
  units_ok sys_executable spawn self brand_info since →
  since ≤ clock w →
  failed pc = false →
  thread_step sys_executable spawn self batch_id brand_info pc w sems
  = Some (pc', w', sems') →
  failed pc' = false.
Proof.
  intros [Hst Hcmds] Hok Hsince Hnf.
  destruct pc as [|[|stage rest]|stage rest|stage rest|stage rest
                  |stage [|cmd cmds] rest|stage msg rest|stage ok rest|b];
    cbn in *; try done.
  - by intros [= <- <- <-].
  - destruct (sems !! stage) as [[|n]|]; try done. by intros [= <- <- <-].
  - case_decide; [|destruct (partial_skip self stage)]; by intros [= <- <- <-].
  - by intros [= <- <- <-].
  - by intros [= <- <- <-].
  - by intros [= <- <- <-].
  - destruct (run_command_spec spawn (mall_name brand_info)
                (mall_brand_name_en brand_info) stage cmd w) as [_ Hr].
    destruct (run_command _ _ _ _ _ _) as [[m|] w1]; cbn in Hr;
      intros [= <- <- <-]; [|done].
    destruct Hr as [Hz _].
    rewrite (Hok (clock w) stage cmd) in Hz; [done|done| |].
    + apply Hst, list_elem_of_here.
    + apply Hcmds, list_elem_of_here.
  - destruct ok; [|done]. by intros [= <- <- <-].
Qed.

(** With the semaphore of its stage in the map, an action of a thread moves
    exactly one unit between the thread and that semaphore. *)
Lemma thread_step_weight_eq brand_info pc w sems pc' w' sems' s :
  (∀ stage, held pc = Some stage → is_Some (sems !! stage)) →
  thread_step sys_executable spawn self batch_id brand_info pc w sems
  = Some (pc', w', sems') →
  weight s pc' + sem_value s sems' = weight s pc + sem_value s sems
  ∧ (is_Some (sems !! s) → is_Some (sems' !! s)).
Proof.
  intros Hheld. unfold weight, holds, sem_value.
  destruct pc as [|[|stage rest]|stage rest|stage rest|stage rest
                  |stage [|cmd cmds] rest|stage msg rest|stage ok rest|b];
    cbn in *; try done.
  - by intros [= <- <- <-].
  - destruct (sems !! stage) as [[|n]|] eqn:E; try done.
    intros [= <- <- <-]. cbn.
    destruct (decide (stage = s)) as [->|Hne].
    + rewrite lookup_insert_eq, E. cbn. rewrite bool_decide_eq_true_2 by done.
      rewrite bool_decide_eq_false_2 by done. split; [lia|eauto].
    + rewrite lookup_insert_ne by done.
      rewrite !bool_decide_eq_false_2 by congruence. split; [lia|done].
  - case_decide; [by intros [= <- <- <-]|].
    destruct (partial_skip self stage); by intros [= <- <- <-].
  - by intros [= <- <- <-].
  - by intros [= <- <- <-].
  - by intros [= <- <- <-].
  - destruct (run_command _ _ _ _ _ _) as [[m|] w1]; by intros [= <- <- <-].
  - by intros [= <- <- <-].
  - intros [= <- <- <-].
    destruct (Hheld stage eq_refl) as [v Hv].
    assert (bool_decide (held (if ok then AtLoop rest else Finished false) = Some s)
            = false) as -> by (by destruct ok).
    destruct (decide (stage = s)) as [->|Hne].
    + rewrite lookup_alter_eq, Hv. rewrite bool_decide_eq_true_2 by done.
      cbn. split; [lia|eauto].
    + rewrite lookup_alter_ne by done.
      rewrite bool_decide_eq_false_2 by congruence. split; [lia|done].
Qed.

Variable brands : list BrandInfo.
Variable max_workers : nat.

Lemma pool_step_measure i g g' :
  pool_step sys_executable spawn self batch_id brands max_workers i g = Some g' →
  pool_measure self g' < pool_measure self g.
Proof.
  intros H. apply pool_step_inv in H as (pc & Hi & [[-> ->]|H]); unfold pool_measure.
  - cbn [p_pcs].
    pose proof (sum_list_insert (pc_measure self) (p_pcs g) i Queued
                  (AtLoop (stages self)) Hi) as Hs.
    cbn [pc_measure] in Hs. lia.
  - destruct H as (b & pc' & w' & sems' & Hb & Hstep & ->). cbn [p_pcs].
    pose proof (sum_list_insert (pc_measure self) (p_pcs g) i pc pc' Hi).
    pose proof (thread_step_measure _ _ _ _ _ _ _ Hstep). lia.
Qed.

(** In the states the pool reaches there is a control point per brand, and
    for every stage of the run the threads inside its block and the counter
    of its semaphore add up to exactly one. *)
Lemma reachable_sems w g :
  reachable sys_executable spawn self batch_id brands max_workers w g →
  length (p_pcs g) = length brands
  ∧ ∀ s, s ∈ stages self →
         is_Some (p_sems g !! s) ∧ holders s (p_pcs g) + sem_value s (p_sems g) = 1.
Proof.
  intros Hg. pattern g. revert g Hg. apply rtc_ind_r.
  2: intros g1 g2 Hrtc Hstep [IHlen IHsem].
  - cbn [pool_init p_pcs p_sems]. split; [by rewrite length_replicate|].
    intros s Hs. rewrite holders_replicate_queued. unfold sem_value.
    rewrite (stage_locks_lookup _ _ Hs). split; [eauto|done].
  - destruct (reachable_evolves _ _ _ _ _ _ _ _ Hrtc) as [Hok _].
    destruct Hstep as [i g1 g2 Hstep].
    apply pool_step_inv in Hstep as (pc & Hi & [[-> ->]|H]).
    + cbn [p_pcs p_sems]. split; [by rewrite length_insert|].
      intros s Hs. destruct (IHsem s Hs) as [Hsome Hsum]. split; [done|].
      pose proof (holders_insert s (p_pcs g1) i Queued (AtLoop (stages self)) Hi) as Hh.
      change (weight s Queued) with 0 in Hh.
      change (weight s (AtLoop (stages self))) with 0 in Hh. lia.
    + destruct H as (b & pc' & w' & sems' & Hb & Hstep & ->). cbn [p_pcs p_sems].
      split; [by rewrite length_insert|].
      intros s Hs. destruct (IHsem s Hs) as [Hsome Hsum].
      assert (∀ stage, held pc = Some stage → is_Some (p_sems g1 !! stage)) as Hin.
      { intros stage Hheld. apply IHsem.
        destruct (Hok i pc b Hi Hb) as [Hst _]. apply Hst.
        destruct pc; cbn in *; try done; injection Hheld as <-; apply list_elem_of_here. }
      destruct (thread_step_weight_eq b pc _ _ _ _ _ s Hin Hstep) as [Hw Hkeep].
      split; [by apply Hkeep|].
      pose proof (holders_insert s (p_pcs g1) i pc pc' Hi). lia.
Qed.

(** A thread inside a block can always move. *)
Lemma thread_step_inside brand_info pc w sems :
  inside pc = true →
  is_Some (thread_step sys_executable spawn self batch_id brand_info pc w sems).
Proof.
  destruct pc as [|todo|stage rest|stage rest|stage rest
                  |stage [|cmd cmds] rest|stage msg rest|stage ok rest|b];
    cbn; try done; intros _; eauto.
  - case_decide; [|destruct (partial_skip self stage)]; eauto.
  - destruct (run_command _ _ _ _ _ _) as [[m|] w1]; eauto.
Qed.

Lemma pool_step_thread i g pc brand_info pc' w' sems' :
  p_pcs g !! i = Some pc → brands !! i = Some brand_info →
  thread_step sys_executable spawn self batch_id brand_info pc (p_world g) (p_sems g)
  = Some (pc', w', sems') →
  pool_step sys_executable spawn self batch_id brands max_workers i g
  = Some (mkPool w' sems' (<[i := pc']> (p_pcs g))).
Proof.
  intros Hi Hb Hstep. unfold pool_step. rewrite Hi, Hb.
  destruct pc; try done; by rewrite Hstep.
Qed.

(** No deadlock: while a task has not returned, some task can move. *)
Lemma pool_progress w g :
  reachable sys_executable spawn self batch_id brands max_workers w g →
  0 < max_workers →
  all_finished g = false →
  ∃ i g', pool_step sys_executable spawn self batch_id brands max_workers i g = Some g'.
Proof.
  intros Hg Hmw Hnf.
  destruct (reachable_sems w g Hg) as [Hlen Hsem].
  destruct (reachable_evolves _ _ _ _ _ _ _ _ Hg) as [Hok _].
  assert (∀ i pc, p_pcs g !! i = Some pc → ∃ b, brands !! i = Some b) as Hbrand.
  { intros i pc Hi. apply lookup_lt_is_Some. rewrite <- Hlen. by eapply lookup_lt_Some. }
  destruct (existsb inside (p_pcs g)) eqn:Hin.
  { apply existsb_lookup in Hin as (i & pc & Hi & Hpc).
    destruct (Hbrand i pc Hi) as [b Hb].
    destruct (thread_step_inside b pc (p_world g) (p_sems g) Hpc) as [[[pc' w'] sems'] Hs].
    eexists i, _. by eapply pool_step_thread. }
  destruct (existsb at_loop (p_pcs g)) eqn:Hat.
  { apply existsb_lookup in Hat as (i & pc & Hi & Hpc).
    destruct (Hbrand i pc Hi) as [b Hb].
    destruct pc as [|[|stage rest]| | | | | | |]; try done.
    - eexists i, _. by eapply pool_step_thread.
    - destruct (Hok i _ b Hi Hb) as [Hst _].
      destruct (Hsem stage) as [[v Hv] Hsum]; [apply Hst, list_elem_of_here|].
      rewrite (holders_none _ _ Hin) in Hsum.
      unfold sem_value in Hsum. rewrite Hv in Hsum. cbn in Hsum. subst v.
      eexists i, _. eapply pool_step_thread; [done..|]. cbn. by rewrite Hv. }
  assert (existsb is_queued (p_pcs g) = true) as Hq.
  { unfold all_finished in Hnf.
    destruct (existsb is_queued (p_pcs g)) eqn:Hq; [done|]. exfalso.
    revert Hnf Hin Hat Hq. generalize (p_pcs g). intros pcs.
    induction pcs as [|pc pcs IH]; cbn; [done|].
    intros Hnf [Hi1 Hi2]%orb_false_iff [Ha1 Ha2]%orb_false_iff [Hq1 Hq2]%orb_false_iff.
    destruct pc; cbn in *; try done. by apply IH. }
  apply first_queued in Hq as (i & Hi & Hbefore).
  destruct (Hbrand i _ Hi) as [b Hb].
  eexists i, _. unfold pool_step. rewrite Hi, Hb, Hbefore.
  rewrite (active_none _ Hin Hat). by rewrite bool_decide_eq_true_2.
Qed.

(** From every state the pool reaches it can run on until every task has
    returned. *)
Lemma pool_can_finish w g :
  reachable sys_executable spawn self batch_id brands max_workers w g →
  0 < max_workers →
  ∃ g', rtc (step sys_executable spawn self batch_id brands max_workers) g g'
        ∧ all_finished g' = true.
Proof.
  intros Hg Hmw.
  remember (pool_measure self g) as n eqn:Hn.
  revert g Hg Hn. induction n as [n IH] using lt_wf_ind. intros g Hg ->.
  destruct (all_finished g) eqn:Hfin.
  - exists g. split; [apply rtc_refl|done].
  - destruct (pool_progress w g Hg Hmw Hfin) as (i & g1 & Hstep).
    destruct (IH (pool_measure self g1) (pool_step_measure _ _ _ Hstep) g1) as (g' & Hrun & Hdone).
    + eapply rtc_r; [exact Hg|]. by econstructor.
    + done.
    + exists g'. split; [|done]. eapply rtc_l; [|exact Hrun]. by econstructor.
Qed.

(** A task whose units all exit with status 0 is never on the failure path,
    whatever the other tasks do. *)
Lemma reachable_not_failed w g :
  reachable sys_executable spawn self batch_id brands max_workers w g →
  ∀ j brand_info pc,
    p_pcs g !! j = Some pc → brands !! j = Some brand_info →
    units_ok sys_executable spawn self brand_info (clock w) →
    failed pc = false.
Proof.
  intros Hg. pattern g. revert g Hg. apply rtc_ind_r.
  2: intros g1 g2 Hrtc Hstep IH.
  - intros j b pc Hj _ _. cbn in Hj. by apply lookup_replicate in Hj as [-> _].
  - intros j b pc Hj Hb Hunits.
    destruct (reachable_evolves _ _ _ _ _ _ _ _ Hrtc) as [Hok Hev].
    destruct Hstep as [i g1 g2 Hstep].
    apply pool_step_inv in Hstep as (pc0 & Hi & [[-> ->]|H]).
    + cbn [p_pcs] in Hj. destruct (decide (i = j)) as [<-|Hne].
      * rewrite list_lookup_insert_eq in Hj by (by eapply lookup_lt_Some).
        by injection Hj as <-.
      * rewrite list_lookup_insert_ne in Hj by done. by eapply IH.
    + destruct H as (b0 & pc' & w' & sems' & Hb0 & Hthread & ->).
      cbn [p_pcs] in Hj. destruct (decide (i = j)) as [<-|Hne].
      * rewrite list_lookup_insert_eq in Hj by (by eapply lookup_lt_Some).
        injection Hj as <-. assert (b0 = b) as -> by congruence.
        eapply thread_step_not_failed; [by eapply Hok|exact Hunits| | |exact Hthread].
        -- by eapply evolves_clock.
        -- by eapply IH.
      * rewrite list_lookup_insert_ne in Hj by done. by eapply IH.
Qed.

End PoolProgress.

(** ** Failure of a worker *)

(** An action of a thread writes to no record but those of its own entity. *)
Lemma thread_step_frame sys_executable spawn self batch_id brand_info pc w sems pc' w' sems' k :
  thread_step sys_executable spawn self batch_id brand_info pc w sems
  = Some (pc', w', sems') →
  (∀ s, k ≠ key_of batch_id brand_info s) →
  pipeline_control w' !! k = pipeline_control w !! k.
Proof.
  intros Hstep Hk.
  assert (∀ stage status msg,
            pipeline_control
              (update_stage_status self batch_id (mall_name brand_info)
                 (mall_brand_name_en brand_info) stage status msg w) !! k
            = pipeline_control w !! k) as Hupd.
  { intros stage status msg. unfold update_stage_status. cbn.
    apply lookup_insert_ne. intros <-. by apply (Hk stage). }
  destruct pc as [|[|stage rest]|stage rest|stage rest|stage rest
                  |stage [|cmd cmds] rest|stage msg rest|stage ok rest|b];
    cbn in Hstep; try done.
  - by injection Hstep as <- <- <-.
  - destruct (sems !! stage) as [[|n]|]; try done. by injection Hstep as <- <- <-.
  - case_decide; [|destruct (partial_skip self stage)]; by injection Hstep as <- <- <-.
  - injection Hstep as <- <- <-. apply Hupd.
  - injection Hstep as <- <- <-. apply Hupd.
  - injection Hstep as <- <- <-. apply Hupd.
  - destruct (run_command_spec spawn (mall_name brand_info)
                (mall_brand_name_en brand_info) stage cmd w) as [Hw _].
    destruct (run_command _ _ _ _ _ _) as [[m|] w1]; cbn in Hw; subst w1;
      by injection Hstep as <- <- <-.
  - injection Hstep as <- <- <-. apply Hupd.
  - by injection Hstep as <- <- <-.
Qed.

Lemma all_finished_lookup g j pc :
  all_finished g = true → p_pcs g !! j = Some pc → ∃ result, pc = Finished result.
Proof.
  unfold all_finished. intros Hall Hj.
  apply list_elem_of_lookup_2, list_elem_of_In in Hj.
  pose proof (proj1 (forallb_forall _ _) Hall pc Hj) as Hpc.
  destruct pc; try done. by eexists.
Qed.

Section FailureIsolation.

Variable sys_executable : string.
Variable spawn : nat → list string → ProcOutcome.
Variable self : Orchestrator.
Variable batch_id : string.
Variable brand_info : BrandInfo.

(** C3. When the worker of a stage fails, the record of that stage is left
    at ['ERROR'] with a diagnostic of at most 500 characters and the
    pipeline of the entity returns [False] there: every action it recorded
    belongs to a stage up to the failing one, and every record other than
    its own at those stages is as it was, so no later stage is run or
    recorded.  The pipeline of any other entity, started in the world the
    failure left, returns [True] with all its stages ['DONE'] as soon as its
    own units exit with status 0.  In the pool, an action of a task changes
    no record of another entity, and from every state the pool reaches it can
    run on until every task has returned, those whose units exit with
    status 0 with [True]. *)
Theorem worker_failure_aborts_entity_only pre stage post w w1 w2 :
  stages self = pre ++ stage :: post →
  pipeline_loop sys_executable spawn self batch_id brand_info pre w = (true, w1) →
  process_stage sys_executable spawn self batch_id brand_info stage w1 = (false, w2) →
  process_brand_pipeline sys_executable spawn self batch_id brand_info w = (false, w2)
  ∧ (∃ row m, pipeline_control w2 !! key_of batch_id brand_info stage = Some row
              ∧ c_status row = "ERROR" ∧ c_error_msg row = Some m ∧ length m ≤ 500)
  ∧ Forall (λ e, ∃ s, s ∈ pre ++ [stage] ∧ about sys_executable brand_info s e)
           (new_events w w2)
  ∧ (∀ k, (∀ s, s ∈ pre ++ [stage] → k ≠ key_of batch_id brand_info s) →
          pipeline_control w2 !! k = pipeline_control w !! k)
  ∧ (∀ other,
       units_ok sys_executable spawn self other (clock w2) →
       let r := process_brand_pipeline sys_executable spawn self batch_id other w2 in
       r.1 = true
       ∧ ∀ s, s ∈ stages self →
              stored_status (pipeline_control r.2) (key_of batch_id other s) = "DONE")
  ∧ (∀ other pc w0 sems pc' w' sems' k,
       thread_step sys_executable spawn self batch_id other pc w0 sems
       = Some (pc', w', sems') →
       (∀ s, k ≠ key_of batch_id other s) →
       pipeline_control w' !! k = pipeline_control w0 !! k)
  ∧ ∀ brands max_workers w0 g,
      0 < max_workers →
      reachable sys_executable spawn self batch_id brands max_workers w0 g →
      ∃ g', rtc (step sys_executable spawn self batch_id brands max_workers) g g'
            ∧ all_finished g' = true
            ∧ ∀ j other,
                brands !! j = Some other →
                units_ok sys_executable spawn self other (clock w0) →
                p_pcs g' !! j = Some (Finished true).
Proof.
  intros Hst Hpre Hfail.
  assert (pipeline_loop sys_executable spawn self batch_id brand_info (pre ++ [stage]) w
          = (false, w2)) as Hrun.
  { rewrite pipeline_loop_app, Hpre. cbn. by rewrite Hfail. }
  split; [|split; [|split; [|split; [|split; [|split]]]]].
  - unfold process_brand_pipeline. rewrite Hst, pipeline_loop_app, Hpre. cbn.
    by rewrite Hfail.
  - by eapply process_stage_false.
  - pose proof (pipeline_loop_evolves sys_executable spawn self batch_id brand_info
                  (pre ++ [stage]) w) as Hev.
    rewrite Hrun in Hev. apply (evolves_new_events _ _ _ _ Hev).
  - intros k Hk.
    pose proof (pipeline_loop_evolves sys_executable spawn self batch_id brand_info
                  (pre ++ [stage]) w) as Hev.
    rewrite Hrun in Hev. apply (evolves_frame _ _ _ _ _ Hev).
    intros (s & Hs & ->). by apply (Hk s).
  - intros other Hok. apply pipeline_all_ok.
    intros t s cmd Ht Hs Hc. by apply (Hok t s cmd).
  - intros other pc w0 sems pc' w' sems' k. apply thread_step_frame.
  - intros brands max_workers w0 g Hmw Hg.
    destruct (pool_can_finish _ _ _ _ _ _ _ _ Hg Hmw) as (g' & Hsteps & Hfin).
    exists g'. split; [done|]. split; [done|].
    intros j other Hj Hok.
    assert (reachable sys_executable spawn self batch_id brands max_workers w0 g') as Hg'
      by (by eapply rtc_trans).
    destruct (reachable_sems _ _ _ _ _ _ _ _ Hg') as [Hlen _].
    destruct (lookup_lt_is_Some_2 (p_pcs g') j) as [pc Hpc].
    { rewrite Hlen. by eapply lookup_lt_Some. }
    destruct (all_finished_lookup _ _ _ Hfin Hpc) as [[|] ->]; [done|].
    by pose proof (reachable_not_failed _ _ _ _ _ _ _ _ Hg' j other _ Hpc Hj Hok).
Qed.

End FailureIsolation.

(** Under [spawn_ami_convert_fails] every unit of NIKE exits with status 0. *)
Lemma nike_units_exit_zero since :
  units_ok "python" spawn_ami_convert_fails orch_full brand_nike since.
Proof.
  intros t s cmd _ Hs Hc.
  unfold orch_full, ALL_STAGES in Hs. cbn [stages] in Hs.
  repeat (apply elem_of_cons in Hs as [->|Hs]);
    try (by apply elem_of_nil in Hs);
    vm_compute in Hc;
    repeat (apply elem_of_cons in Hc as [->|Hc]);
    try (by apply elem_of_nil in Hc);
    reflexivity.
Qed.

(** AMI's converter fails in a FULL run: AMI stops at CONVERT, NIKE then
    completes. *)
Lemma worker_failure_aborts_entity_only_witness :
  let w1 := (pipeline_loop "python" spawn_ami_convert_fails orch_full "B1" brand_ami
               ["COLLECT"] world0).2 in
  let w2 := (process_stage "python" spawn_ami_convert_fails orch_full "B1" brand_ami
               "CONVERT" w1).2 in
  process_brand_pipeline "python" spawn_ami_convert_fails orch_full "B1" brand_ami world0
  = (false, w2)
  ∧ (process_brand_pipeline "python" spawn_ami_convert_fails orch_full "B1" brand_nike w2).1
    = true.
Proof.
  cbn zeta.
  destruct (worker_failure_aborts_entity_only "python" spawn_ami_convert_fails orch_full
              "B1" brand_ami ["COLLECT"] "CONVERT" ["IMAGE"; "PRICE"; "REGISTER"] world0
              (pipeline_loop "python" spawn_ami_convert_fails orch_full "B1" brand_ami
                 ["COLLECT"] world0).2
              (process_stage "python" spawn_ami_convert_fails orch_full "B1" brand_ami
                 "CONVERT"
                 (pipeline_loop "python" spawn_ami_convert_fails orch_full "B1" brand_ami
                    ["COLLECT"] world0).2).2)
    as (Hres & _ & _ & _ & Hother & _).
  - reflexivity.
  - vm_compute. reflexivity.
  - vm_compute. reflexivity.
  - split; [exact Hres|].
    apply (Hother brand_nike). apply nike_units_exit_zero.
Defined.

(** ** The upsert and [started_at] *)

(** C9, as the code has it. A write to a record that exists overwrites
    [status] and [error_msg], sets [updated_at] to the time of the write and
    keeps [run_mode] and [started_at]; a write to a record that does not
    exist creates it with [started_at] at the time of the write, whatever the
    status written; no other record changes; and after a whole pipeline every
    record that existed still has the [started_at] it had. *)
Theorem upsert_keeps_started_at self batch_id mall brand stage status msg w :
  let k := (batch_id, mall, brand, stage) in
  let w' := update_stage_status self batch_id mall brand stage status msg w in
  (∀ row, pipeline_control w !! k = Some row →
          pipeline_control w' !! k
          = Some (mkControlRow (c_run_mode row) status msg (c_started_at row)
                               (ColVal (clock w))))
  ∧ (pipeline_control w !! k = None →
     pipeline_control w' !! k
     = Some (mkControlRow (run_mode self) status msg (clock w) ColDefault))
  ∧ (∀ k', k' ≠ k → pipeline_control w' !! k' = pipeline_control w !! k')
  ∧ (∀ sys_executable spawn brand_info k' row,
       pipeline_control w !! k' = Some row →
       ∃ row',
         pipeline_control
           (process_brand_pipeline sys_executable spawn self batch_id brand_info w).2 !! k'
         = Some row'
         ∧ c_started_at row' = c_started_at row)
  ∧ ∀ sys_executable spawn brands max_workers g k' row,
      reachable sys_executable spawn self batch_id brands max_workers w g →
      pipeline_control w !! k' = Some row →
      ∃ row', pipeline_control (p_world g) !! k' = Some row'
              ∧ c_started_at row' = c_started_at row.
Proof.
  cbn zeta. split; [|split; [|split; [|split]]].
  - intros row Hrow. by rewrite update_stage_status_lookup, Hrow.
  - intros Hnone. by rewrite update_stage_status_lookup, Hnone.
  - intros k' Hne. unfold update_stage_status. cbn. by rewrite lookup_insert_ne.
  - intros sys_executable spawn brand_info k' row Hrow.
    destruct (pipeline_loop_evolves sys_executable spawn self batch_id brand_info
                (stages self) w) as (_ & _ & _ & Hkeep & _).
    destruct (Hkeep k' row Hrow) as (row' & Hk' & Hst & _).
    by exists row'.
  - intros sys_executable spawn brands max_workers g k' row Hg Hrow.
    destruct (reachable_evolves _ _ _ _ _ _ _ _ Hg) as [_ (_ & _ & _ & Hkeep & _)].
    destruct (Hkeep k' row Hrow) as (row' & Hk' & Hst & _).
    by exists row'.
Qed.

(** The COLLECT record of AMI was left at ['ERROR'] by an earlier run; the
    retry marks it ['RUNNING'] and [started_at] stays at 2. *)
Lemma upsert_keeps_started_at_witness :
  pipeline_control
    (update_stage_status orch_full "B1" "okmall" "AMI" "COLLECT" "RUNNING" None
       world_retry) !! ("B1", "okmall", "AMI", "COLLECT")
  = Some (mkControlRow "FULL" "RUNNING" None 2 (ColVal 7)).
Proof.
  apply (proj1 (upsert_keeps_started_at orch_full "B1" "okmall" "AMI" "COLLECT"
                  "RUNNING" None world_retry)
           (mkControlRow "FULL" "ERROR" (Some (py "boom")) 2 (ColVal 4))).
  vm_compute. reflexivity.
Defined.

(** C9, as stated, fails. In PARTIAL mode the turn of the loop for CONVERT
    creates the record, and with it [started_at], by writing ['DONE']: the
    record never goes through ['RUNNING']. *)
Lemma started_at_on_running_counterexample :
  ¬ started_at_needs_running "python" spawn_ok orch_partial "B1" brand_ami "CONVERT" world0.
Proof.
  unfold started_at_needs_running. cbn zeta. intros H.
  assert (new_events world0
            (process_stage "python" spawn_ok orch_partial "B1" brand_ami "CONVERT" world0).2
          = [EvAcquire "CONVERT";
             EvGetStatus "okmall" "AMI" "CONVERT" "PENDING";
             EvSetStatus "okmall" "AMI" "CONVERT" "DONE" (Some (py "Skipped in PARTIAL mode"));
             EvRelease "CONVERT"]) as E by (vm_compute; reflexivity).
  rewrite E in H.
  assert (EvSetStatus (mall_name brand_ami) (mall_brand_name_en brand_ami) "CONVERT"
            "RUNNING" None
          ∈ [EvAcquire "CONVERT";
             EvGetStatus "okmall" "AMI" "CONVERT" "PENDING";
             EvSetStatus "okmall" "AMI" "CONVERT" "DONE" (Some (py "Skipped in PARTIAL mode"));
             EvRelease "CONVERT"]) as Hin.
  { apply H; [vm_compute; reflexivity|]. eexists. vm_compute. reflexivity. }
  repeat (apply elem_of_cons in Hin as [Hin|Hin]; [discriminate Hin|]).
  by apply elem_of_nil in Hin.
Qed.

(** * Further properties *)

(** ** Construction *)

Lemma index_None x l : index x l = None → x ∉ l.
Proof.
  induction l as [|y l IH]; cbn; [intros _ H; by apply elem_of_nil in H|].
  case_decide as Hxy; [done|].
  destruct (index x l); [done|]. intros _ [->|H]%elem_of_cons; [done|by apply IH].
Qed.

(** X1. Whatever [str.upper] does, [__init__] fails only with the
    [ValueError] of a non-empty [until_stage] whose upper case is not a stage
    name.  Otherwise the stage list is a non-empty, duplicate-free prefix of
    the fixed sequence, the final stage is its last element, and it is the
    upper case of [until_stage], or the stage list is the whole sequence when
    [until_stage] is absent or empty. *)
Theorem init_stage_list upper mode mall brand exclude until_stage :
  match init upper mode mall brand exclude until_stage with
  | inr self =>
      stages self `prefix_of` ALL_STAGES
      ∧ NoDup (stages self)
      ∧ last (stages self) = Some (final_stage self)
      ∧ run_mode self = mode
      ∧ match truthy until_stage with
        | Some u => final_stage self = upper u
        | None => stages self = ALL_STAGES
        end
  | inl e =>
      ∃ u, truthy until_stage = Some u ∧ (upper u ∉ ALL_STAGES) ∧ e = ValueError u
  end.
Proof.
  unfold init. destruct (truthy until_stage) as [u|] eqn:Hu.
  - destruct (index (upper u) ALL_STAGES) as [i|] eqn:Hi.
    + pose proof (index_lookup _ _ _ Hi) as Hl.
      rewrite Nat.add_1_r, (last_take_lookup _ _ _ Hl).
      cbn [stages final_stage run_mode].
      split; [apply prefix_take|]. split; [|by rewrite (last_take_lookup _ _ _ Hl)].
      destruct i as [|[|[|[|[|i]]]]]; cbn in Hl; try done;
        cbn; by apply (bool_decide_unpack _).
    + exists u. split; [done|]. split; [by apply index_None|done].
  - cbn. split; [done|]. split; [by apply (bool_decide_unpack _)|done].
Qed.

(** ** Target brands *)

(** X2. Whatever [str.upper] and [UPPER] do, the targets are the selections
    of the catalogue rows that are active, belong to the mall asked for when
    one was asked for, have the brand filter as the [UPPER] of their name
    when one was given, the filter taken through [str.upper], and whose
    [UPPER] name is the [str.upper] of no name of the exclusion list given
    to [__init__]; an empty filter is no filter. *)
Theorem targets_respect_filters upper UPPER mode mall brand exclude until_stage self w b :
  init upper mode mall brand exclude until_stage = inr self →
  b ∈ (get_target_brands upper UPPER self w).1
  ↔ ∃ row, row ∈ mall_brands w ∧ cat_info row = b ∧ is_active row = 1%Z
           ∧ (∀ m, truthy mall = Some m → mall_name b = m)
           ∧ (∀ f, truthy brand = Some f → UPPER (mall_brand_name_en b) = upper f)
           ∧ ∀ x, x ∈ default [] exclude → UPPER (mall_brand_name_en b) ≠ upper x.
Proof.
  intros Hinit.
  assert (mall_filter self = mall ∧ brand_filter self = brand
          ∧ exclude_brands self = upper <$> default [] exclude) as (Hm & Hf & Hx).
  { unfold init in Hinit.
    destruct (truthy until_stage); [destruct (index _ _)|];
      try done; destruct (last _); try done; by injection Hinit as <-. }
  unfold get_target_brands. cbn [fst].
  rewrite list_elem_of_fmap. split.
  - intros (row & -> & Hrow).
    apply list_elem_of_In, filter_In in Hrow as [Hin Ht].
    unfold is_target in Ht. rewrite Hm, Hf, Hx in Ht.
    apply andb_true_iff in Ht as [Ht Hexcl].
    apply andb_true_iff in Ht as [Ht Hbrand].
    apply andb_true_iff in Ht as [Hact Hmall].
    exists row. split; [by apply list_elem_of_In|]. split; [done|].
    split; [by apply bool_decide_eq_true in Hact|]. split; [|split].
    + intros m Hmm. rewrite Hmm in Hmall. by apply bool_decide_eq_true in Hmall.
    + intros f Hff. rewrite Hff in Hbrand. by apply bool_decide_eq_true in Hbrand.
    + intros x Hxin Heq.
      destruct (upper <$> default [] exclude) as [|e l] eqn:El.
      * apply (list_elem_of_fmap_2 upper) in Hxin. rewrite El in Hxin.
        by apply elem_of_nil in Hxin.
      * apply negb_true_iff, bool_decide_eq_false in Hexcl. apply Hexcl.
        rewrite Heq, <- El. by apply list_elem_of_fmap_2.
  - intros (row & Hin & <- & Hact & Hmall & Hbrand & Hexcl).
    exists row. split; [done|].
    apply list_elem_of_In, filter_In. split; [by apply list_elem_of_In|].
    unfold is_target. rewrite Hm, Hf, Hx.
    rewrite bool_decide_eq_true_2 by done. cbn [andb].
    apply andb_true_iff. split; [apply andb_true_iff; split|].
    + destruct (truthy mall) as [m|]; [|done]. apply bool_decide_eq_true. by apply Hmall.
    + destruct (truthy brand) as [f|]; [|done]. apply bool_decide_eq_true. by apply Hbrand.
    + destruct (upper <$> default [] exclude) as [|e l] eqn:El; [done|].
      apply negb_true_iff, bool_decide_eq_false. rewrite <- El.
      intros (x & Heq & Hxin)%list_elem_of_fmap. by apply (Hexcl x).
Qed.

(** ** The stage state store *)

(** X3. What [update_stage_status] writes is what [get_stage_status] reads
    back, the status of every other key is as before, reading changes no
    record, and writing the same status and message a second time changes
    nothing of the record but [updated_at]. *)
Theorem status_write_then_read self batch_id mall brand stage status msg w :
  let w1 := update_stage_status self batch_id mall brand stage status msg w in
  (get_stage_status batch_id mall brand stage w1).1 = status
  ∧ (∀ k, k ≠ (batch_id, mall, brand, stage) →
          stored_status (pipeline_control w1) k = stored_status (pipeline_control w) k)
  ∧ pipeline_control (get_stage_status batch_id mall brand stage w1).2 = pipeline_control w1
  ∧ ∃ row,
      pipeline_control w1 !! (batch_id, mall, brand, stage) = Some row
      ∧ pipeline_control (update_stage_status self batch_id mall brand stage status msg w1)
        = <[(batch_id, mall, brand, stage) :=
              mkControlRow (c_run_mode row) (c_status row) (c_error_msg row)
                           (c_started_at row) (ColVal (clock w1))]> (pipeline_control w1).
Proof.
  cbn zeta. split; [|split; [|split]].
  - unfold get_stage_status. cbn [fst]. apply update_stage_status_status.
  - intros k Hk. unfold stored_status, update_stage_status. cbn.
    by rewrite lookup_insert_ne.
  - done.
  - eexists. split; [apply update_stage_status_lookup|].
    unfold update_stage_status at 1. cbn [pipeline_control emit set_control].
    rewrite update_stage_status_lookup. cbn [upsert].
    by destruct (pipeline_control w !! _).
Qed.

(** ** Outcome of a stage and of a pipeline *)

Section Outcome.

Variable sys_executable : string.
Variable spawn : nat → list string → ProcOutcome.
Variable self : Orchestrator.
Variable batch_id : string.
Variable brand_info : BrandInfo.

Lemma process_stage_outcome stage w :
  let r := process_stage sys_executable spawn self batch_id brand_info stage w in
  stored_status (pipeline_control r.2) (key_of batch_id brand_info stage)
  = (if r.1 then "DONE" else "ERROR")
  ∧ (stored_status (pipeline_control w) (key_of batch_id brand_info stage) ≠ "DONE" →
     partial_skip self stage = false → r.1 = true →
     c_error_msg <$> pipeline_control r.2 !! key_of batch_id brand_info stage = Some None).
Proof.
  cbn zeta. unfold process_stage, stage_body, get_stage_status, execute_worker. cbn zeta.
  unfold key_of. cbn [pipeline_control emit].
  case_decide as Hd; [by split|].
  destruct (partial_skip self stage).
  { split; [|done]. cbn [fst snd pipeline_control emit].
    apply update_stage_status_status. }
  match goal with
  | |- context [run_commands _ _ _ _ _ _ ?c ?w0] =>
      pose proof (run_commands_spec spawn self batch_id (mall_name brand_info)
                    (mall_brand_name_en brand_info) stage c w0) as H;
      destruct (run_commands spawn self batch_id (mall_name brand_info)
                  (mall_brand_name_en brand_info) stage c w0) as [ok w1]
  end.
  cbn [fst snd pipeline_control emit] in *.
  destruct H as (n & msg & _ & Hs & Hm & Hcase).
  split; [done|]. intros _ _ ->. by destruct Hcase as (_ & -> & _).
Qed.

(** X4. What a turn of the loop returns tells where it left the record of
    its stage: ['DONE'] when it lets the pipeline go on, ['ERROR'] when it
    stops it with [False]; and a worker that returned [True] leaves no
    diagnostic, so a retry that succeeds clears the one an earlier failure
    wrote.  (A turn that is left by an exception returns neither.) *)
Theorem stage_turn_ends_done_or_error stage w ok w' :
  process_stage sys_executable spawn self batch_id brand_info stage w = (ok, w') →
  stored_status (pipeline_control w') (key_of batch_id brand_info stage)
  = (if ok then "DONE" else "ERROR")
  ∧ (stored_status (pipeline_control w) (key_of batch_id brand_info stage) ≠ "DONE" →
     partial_skip self stage = false → ok = true →
     c_error_msg <$> pipeline_control w' !! key_of batch_id brand_info stage = Some None)
  ∧ (ok = false →
     ∃ row m, pipeline_control w' !! key_of batch_id brand_info stage = Some row
              ∧ c_error_msg row = Some m ∧ length m ≤ 500).
Proof.
  intros Hturn.
  pose proof (process_stage_outcome stage w) as [Hst Hmsg]. rewrite Hturn in Hst, Hmsg.
  cbn [fst snd] in *. split; [done|]. split; [done|].
  intros ->. destruct (process_stage_false _ _ _ _ _ _ _ _ Hturn) as (row & m & H1 & _ & H2 & H3).
  by exists row, m.
Qed.

Lemma pipeline_loop_true todo w :
  (pipeline_loop sys_executable spawn self batch_id brand_info todo w).1 = true →
  ∀ s, s ∈ todo →
       stored_status
         (pipeline_control (pipeline_loop sys_executable spawn self batch_id brand_info todo w).2)
         (key_of batch_id brand_info s) = "DONE".
Proof.
  revert w. induction todo as [|stage rest IH]; intros w Hok s Hs.
  - by apply elem_of_nil in Hs.
  - cbn [pipeline_loop] in *.
    destruct (process_stage_outcome stage w) as [Hst _].
    destruct (process_stage sys_executable spawn self batch_id brand_info stage w)
      as [[|] w1]; [|done].
    cbn [fst snd] in *.
    apply elem_of_cons in Hs as [->|Hs]; [|by apply IH].
    pose proof (pipeline_loop_done sys_executable spawn self batch_id brand_info
                  stage rest w1 Hst) as Hd.
    unfold stored_status in *.
    rewrite (evolves_frame _ _ _ _ _ Hd); [done|]. intros Hc. by apply Hc.
Qed.

Lemma pipeline_loop_false todo w :
  (pipeline_loop sys_executable spawn self batch_id brand_info todo w).1 = false →
  ∃ pre s post,
    todo = pre ++ s :: post
    ∧ stored_status
        (pipeline_control (pipeline_loop sys_executable spawn self batch_id brand_info todo w).2)
        (key_of batch_id brand_info s) = "ERROR"
    ∧ ∀ s', s' ∈ pre →
            stored_status
              (pipeline_control
                 (pipeline_loop sys_executable spawn self batch_id brand_info todo w).2)
              (key_of batch_id brand_info s') = "DONE".
Proof.
  revert w. induction todo as [|stage rest IH]; intros w Hok; [done|].
  cbn [pipeline_loop] in *.
  destruct (process_stage_outcome stage w) as [Hst _].
  destruct (process_stage sys_executable spawn self batch_id brand_info stage w)
    as [[|] w1]; cbn [fst snd] in *.
  - destruct (IH w1 Hok) as (pre & s & post & -> & Herr & Hdone).
    exists (stage :: pre), s, post. split; [done|]. split; [done|].
    intros s' [->|Hs']%elem_of_cons; [|by apply Hdone].
    pose proof (pipeline_loop_done sys_executable spawn self batch_id brand_info
                  stage (pre ++ s :: post) w1 Hst) as Hd.
    unfold stored_status in *.
    rewrite (evolves_frame _ _ _ _ _ Hd); [done|]. intros Hc. by apply Hc.
  - exists [], stage, rest. split; [done|]. split; [done|].
    intros s' Hs'. by apply elem_of_nil in Hs'.
Qed.

(** X5. The result of [process_brand_pipeline] tells what the store holds:
    after [True] every stage of the list is ['DONE'] for the entity; after
    [False] one stage of the list is ['ERROR'] and the stages before it are
    ['DONE']. *)
Theorem pipeline_result_reflects_store w :
  let r := process_brand_pipeline sys_executable spawn self batch_id brand_info w in
  if r.1
  then ∀ s, s ∈ stages self →
            stored_status (pipeline_control r.2) (key_of batch_id brand_info s) = "DONE"
  else ∃ pre s post,
         stages self = pre ++ s :: post
         ∧ stored_status (pipeline_control r.2) (key_of batch_id brand_info s) = "ERROR"
         ∧ ∀ s', s' ∈ pre →
                 stored_status (pipeline_control r.2) (key_of batch_id brand_info s') = "DONE".
Proof.
  cbn zeta. unfold process_brand_pipeline.
  destruct (pipeline_loop sys_executable spawn self batch_id brand_info (stages self) w).1
    eqn:E.
  - by apply pipeline_loop_true.
  - by apply pipeline_loop_false.
Qed.

Lemma pipeline_loop_all_done todo w :
  (∀ s, s ∈ todo →
        stored_status (pipeline_control w) (key_of batch_id brand_info s) = "DONE") →
  let r := pipeline_loop sys_executable spawn self batch_id brand_info todo w in
  r.1 = true
  ∧ evolves (λ e, stage_access e = None ∨ ∃ m b s, e = EvGetStatus m b s "DONE")
            (λ _, False) w r.2.
Proof.
  revert w. induction todo as [|stage rest IH]; intros w Hall; cbn zeta.
  - cbn. split; [done|]. apply evolves_refl.
  - cbn [pipeline_loop].
    rewrite (process_stage_done sys_executable spawn self batch_id brand_info stage w)
      by apply Hall, list_elem_of_here.
    destruct (IH (emit (EvRelease stage)
                    (emit (EvGetStatus (mall_name brand_info) (mall_brand_name_en brand_info)
                            stage "DONE") (emit (EvAcquire stage) w))))
      as (Hok & Hev).
    { intros s Hs. cbn. apply Hall. by apply list_elem_of_further. }
    split; [done|].
    eapply evolves_trans; [|exact Hev].
    eapply evolves_trans; [|apply evolves_emit; by left].
    eapply evolves_trans; [|apply evolves_emit; right; by eexists _, _, _].
    apply evolves_emit. by left.
Qed.

(** X6. Running the pipeline of an entity again after it returned [True]
    returns [True] again, changes no record, launches nothing and writes
    nothing: it only reads ['DONE'] at every stage. *)
Theorem completed_pipeline_rerun_is_idle w :
  let r := process_brand_pipeline sys_executable spawn self batch_id brand_info w in
  r.1 = true →
  let r' := process_brand_pipeline sys_executable spawn self batch_id brand_info r.2 in
  r'.1 = true
  ∧ pipeline_control r'.2 = pipeline_control r.2
  ∧ Forall (λ e, stage_access e = None ∨ ∃ m b s, e = EvGetStatus m b s "DONE")
           (new_events r.2 r'.2).
Proof.
  cbn zeta. intros Hok.
  destruct (pipeline_loop_all_done (stages self)
              (process_brand_pipeline sys_executable spawn self batch_id brand_info w).2)
    as [Hok' Hev].
  { by apply pipeline_loop_true. }
  split; [done|]. split.
  - apply map_eq. intros k. apply (evolves_frame _ _ _ _ _ Hev). by intros [].
  - by apply (evolves_new_events _ _ _ _ Hev).
Qed.

(** X7. For a stage name that is none of the five, [execute_worker] builds
    no command: it marks the record ['RUNNING'], launches nothing, marks the
    record ['DONE'] and returns [True]. *)
Theorem unknown_stage_runs_nothing mall brand stage target w :
  stage ∉ ALL_STAGES →
  execute_worker sys_executable spawn self batch_id mall brand stage target w
  = (true,
     update_stage_status self batch_id mall brand stage "DONE" None
       (update_stage_status self batch_id mall brand stage "RUNNING" None w)).
Proof.
  intros Hno. unfold execute_worker, commands_for.
  repeat (case_decide; [exfalso; subst; apply Hno; by apply (bool_decide_unpack _)|]).
  done.
Qed.

End Outcome.

(** ** Batch identifiers *)

Lemma digit_inj a b : digit a = digit b → a mod 10 = b mod 10.
Proof.
  unfold digit. intros H. apply (f_equal nat_of_ascii) in H.
  rewrite !nat_ascii_embedding in H; lia.
Qed.

Lemma pad2_digits n m :
  n < 100 → m < 100 → digit (n / 10) = digit (m / 10) → digit n = digit m → n = m.
Proof.
  intros Hn Hm H1%digit_inj H2%digit_inj. zify. Z.div_mod_to_equations. lia.
Qed.

Lemma pad4_digits n m :
  n < 100 * 100 → m < 100 * 100 →
  digit (n / 1000) = digit (m / 1000) → digit (n / 100) = digit (m / 100) →
  digit (n / 10) = digit (m / 10) → digit n = digit m → n = m.
Proof.
  intros Hn Hm H1%digit_inj H2%digit_inj H3%digit_inj H4%digit_inj.
  zify. Z.div_mod_to_equations. lia.
Qed.

(** X8. The identifier of a new batch has fifteen characters, and two
    readings of the clock that differ in some field give two different
    identifiers: a new batch takes the identifier of an older one only when
    both are created within the same second. *)
Theorem batch_id_identifies_second d1 d2 :
  valid_datetime d1 → valid_datetime d2 →
  String.length (strftime d1) = 15
  ∧ (strftime d1 = strftime d2 → d1 = d2).
Proof.
  intros ([_ Hy1] & [_ Hm1] & [_ Hd1] & Hh1 & Hi1 & Hs1)
         ([_ Hy2] & [_ Hm2] & [_ Hd2] & Hh2 & Hi2 & Hs2).
  split; [done|].
  unfold strftime, pad4, pad2. cbn [String.append].
  intros [= Y1 Y2 Y3 Y4 M1 M2 D1 D2 H1 H2 I1 I2 S1 S2].
  destruct d1 as [y1 m1 dd1 h1 i1 s1], d2 as [y2 m2 dd2 h2 i2 s2]. cbn in *.
  f_equal.
  - by apply pad4_digits.
  - apply pad2_digits; [lia|lia|done|done].
  - apply pad2_digits; [lia|lia|done|done].
  - apply pad2_digits; [lia|lia|done|done].
  - apply pad2_digits; [lia|lia|done|done].
  - apply pad2_digits; [lia|lia|done|done].
Qed.

(** ** Width and order of the pool *)

Section PoolShape.

Variable sys_executable : string.
Variable spawn : nat → list string → ProcOutcome.
Variable self : Orchestrator.
Variable batch_id : string.

Lemma thread_step_load brand_info pc w sems pc' w' sems' :
  thread_step sys_executable spawn self batch_id brand_info pc w sems
  = Some (pc', w', sems') →
  load pc' ≤ load pc ∧ is_queued pc = false ∧ is_queued pc' = false.
Proof.
  unfold load.
  destruct pc as [|[|stage rest]|stage rest|stage rest|stage rest
                  |stage [|cmd cmds] rest|stage msg rest|stage ok rest|b];
    cbn; try done;
    try (destruct (sems !! stage) as [[|n]|]; try done);
    try (case_decide; [|destruct (partial_skip self stage)]);
    try (destruct (run_command _ _ _ _ _ _) as [[m|] w1]);
    intros [= <- <- <-]; try destruct ok; cbn; (split; [lia|by split]).
Qed.

Variable brands : list BrandInfo.
Variable max_workers : nat.

Lemma holders_pos s pcs :
  0 < holders s pcs → ∃ k pc, pcs !! k = Some pc ∧ holds s pc = true.
Proof.
  unfold holders. induction pcs as [|pc pcs IH]; csimpl; [lia|].
  unfold weight at 1. destruct (holds s pc) eqn:E.
  - intros _. by exists 0, pc.
  - intros H. destruct (IH H) as (k & q & Hk & Hq). by exists (S k), q.
Qed.

Lemma sum_list_le_add {A} (f1 f2 f3 : A → nat) l :
  (∀ x, f1 x ≤ f2 x + f3 x) →
  sum_list (f1 <$> l) ≤ sum_list (f2 <$> l) + sum_list (f3 <$> l).
Proof.
  intros H. induction l as [|x l IH]; csimpl; [lia|]. specialize (H x). lia.
Qed.

Lemma sum_list_le_elem {A} (f1 f2 : A → nat) l :
  (∀ x, x ∈ l → f1 x ≤ f2 x) → sum_list (f1 <$> l) ≤ sum_list (f2 <$> l).
Proof.
  induction l as [|x l IH]; intros H; csimpl; [lia|].
  pose proof (H x (list_elem_of_here _ _)).
  assert (∀ y, y ∈ l → f1 y ≤ f2 y) as H' by (intros y Hy; apply H; by apply list_elem_of_further).
  specialize (IH H'). lia.
Qed.

(** Binary semaphores admit at most as many tasks as there are stages. *)
Lemma holds_one_of_bound stages pcs :
  (∀ s, holders s pcs ≤ 1) → sum_list (holds_one_of stages <$> pcs) ≤ length stages.
Proof.
  intros Hbin. induction stages as [|s0 stages IH].
  - assert (sum_list (holds_one_of [] <$> pcs) ≤ sum_list ((λ _, 0) <$> pcs)) as H.
    { apply sum_list_le_elem. intros pc _. unfold holds_one_of.
      destruct (held pc); [|done]. rewrite bool_decide_eq_false_2; [done|].
      intros Hin. by apply elem_of_nil in Hin. }
    assert (sum_list ((λ _ : Pc, 0) <$> pcs) = 0) as H0
      by (clear; induction pcs; csimpl; done).
    cbn. lia.
  - pose proof (sum_list_le_add (holds_one_of (s0 :: stages)) (weight s0)
                  (holds_one_of stages) pcs) as H.
    specialize (Hbin s0). unfold holders in Hbin. cbn [length].
    enough (sum_list (holds_one_of (s0 :: stages) <$> pcs)
            ≤ sum_list (weight s0 <$> pcs) + sum_list (holds_one_of stages <$> pcs)) by lia.
    apply H. intros pc. unfold holds_one_of, weight, holds.
    destruct (held pc) as [s|]; [|lia].
    destruct (decide (s = s0)) as [->|Hne].
    + rewrite (bool_decide_eq_true_2 (Some s0 = Some s0)) by done.
      destruct (bool_decide (s0 ∈ s0 :: stages)), (bool_decide (s0 ∈ stages)); lia.
    + destruct (decide (s ∈ stages)) as [Hin|Hout].
      * rewrite (bool_decide_eq_true_2 (s ∈ stages)) by done.
        destruct (bool_decide (s ∈ s0 :: stages)); lia.
      * rewrite (bool_decide_eq_false_2 (s ∈ s0 :: stages)); [lia|].
        intros [->|Hin]%elem_of_cons; done.
Qed.

Lemma blocks_in_use_length pcs : blocks_in_use pcs ≤ length pcs.
Proof.
  unfold blocks_in_use, in_block.
  induction pcs as [|pc pcs IH]; csimpl; [lia|]. destruct (inside pc); lia.
Qed.

(** X9. Whatever the width of the pool, the tasks that are inside the block
    of a stage at the same time are never more than the brands nor more than
    the stages of the run: the width [run] asks for,
    [min(len(brands), len(self.stages))], is all the semaphores let work at
    once. *)
Theorem blocks_in_use_bounded w g :
  reachable sys_executable spawn self batch_id brands max_workers w g →
  blocks_in_use (p_pcs g) ≤ length brands `min` length (stages self).
Proof.
  intros Hg.
  destruct (reachable_sems _ _ _ _ _ _ _ _ Hg) as [Hlen _].
  destruct (reachable_evolves _ _ _ _ _ _ _ _ Hg) as [Hok _].
  apply Nat.min_glb.
  - rewrite <- Hlen. apply blocks_in_use_length.
  - etrans; [|apply (holds_one_of_bound (stages self) (p_pcs g))].
    + unfold blocks_in_use.
      assert (∀ i pc, p_pcs g !! i = Some pc → in_block pc ≤ holds_one_of (stages self) pc)
        as Hle.
      { intros i pc Hi.
        destruct (lookup_lt_is_Some_2 brands i) as [b Hb].
        { rewrite <- Hlen. by eapply lookup_lt_Some. }
        destruct (Hok i pc b Hi Hb) as [Hst _].
        unfold in_block, holds_one_of, inside.
        destruct (held pc) as [s|] eqn:Hheld; [|done].
        rewrite bool_decide_eq_true_2; [done|]. apply Hst.
        destruct pc; cbn in *; try done; injection Hheld as <-; apply list_elem_of_here. }
      revert Hle. generalize (p_pcs g). intros pcs.
      induction pcs as [|pc pcs IH]; intros Hle; csimpl; [lia|].
      pose proof (Hle 0 pc eq_refl).
      assert (∀ i q, pcs !! i = Some q → in_block q ≤ holds_one_of (stages self) q) as Hle'
        by (intros i q Hi; by apply (Hle (S i))).
      specialize (IH Hle'). lia.
    + intros s. pose proof (reachable_holders _ _ _ _ _ _ _ _ s Hg). lia.
Qed.

(** X10. The semaphores never deadlock the pool.  In every state it reaches,
    a task that waits for the semaphore of a stage waits for another task
    that is inside the block of that stage, and that task can move; and if
    some task has not returned, some task can move.  (The launch of a unit
    and the wait for its exit are one move.) *)
Theorem pool_never_deadlocks w g :
  reachable sys_executable spawn self batch_id brands max_workers w g →
  (∀ j s rest,
     p_pcs g !! j = Some (AtLoop (s :: rest)) →
     pool_step sys_executable spawn self batch_id brands max_workers j g = None →
     ∃ k pc, k ≠ j ∧ p_pcs g !! k = Some pc ∧ holds s pc = true
             ∧ is_Some (pool_step sys_executable spawn self batch_id brands max_workers k g))
  ∧ (0 < max_workers → all_finished g = false →
     ∃ i g', pool_step sys_executable spawn self batch_id brands max_workers i g = Some g').
Proof.
  intros Hg. split; [|by apply (pool_progress _ _ _ _ _ _ w)].
  intros j s rest Hj Hstuck.
  destruct (reachable_sems _ _ _ _ _ _ _ _ Hg) as [Hlen Hsem].
  destruct (reachable_evolves _ _ _ _ _ _ _ _ Hg) as [Hok _].
  assert (∀ i pc, p_pcs g !! i = Some pc → ∃ b, brands !! i = Some b) as Hbrand.
  { intros i pc Hi. apply lookup_lt_is_Some. rewrite <- Hlen. by eapply lookup_lt_Some. }
  destruct (Hbrand j _ Hj) as [b Hb].
  destruct (Hok j _ b Hj Hb) as [Hst _].
  destruct (Hsem s) as [[v Hv] Hsum]; [apply Hst, list_elem_of_here|].
  unfold pool_step in Hstuck. rewrite Hj, Hb in Hstuck. cbn in Hstuck.
  rewrite Hv in Hstuck. destruct v as [|v]; [|done].
  unfold sem_value in Hsum. rewrite Hv in Hsum. cbn in Hsum.
  destruct (holders_pos s (p_pcs g)) as (k & pc & Hk & Hpc); [lia|].
  exists k, pc. split; [|split; [done|split; [done|]]].
  - intros ->. rewrite Hj in Hk. injection Hk as <-. done.
  - destruct (Hbrand k pc Hk) as [bk Hbk].
    destruct (thread_step_inside sys_executable spawn self batch_id bk pc
                (p_world g) (p_sems g)) as [[[pc' w'] sems'] Hs].
    { unfold inside. unfold holds in Hpc. apply bool_decide_eq_true in Hpc. by rewrite Hpc. }
    erewrite pool_step_thread; [eauto|done..].
Qed.

Lemma nsteps_measure n g g' :
  nsteps (step sys_executable spawn self batch_id brands max_workers) n g g' →
  n + pool_measure self g' ≤ pool_measure self g.
Proof.
  induction 1 as [|n g1 g2 g3 Hstep _ IH]; [lia|].
  destruct Hstep as [i g1 g2 Hstep].
  pose proof (pool_step_measure _ _ _ _ _ _ _ _ _ Hstep). lia.
Qed.

(** What a schedule does is a run of as many steps as it has entries that
    name a task that can move. *)
Lemma run_schedule_nsteps sched g :
  nsteps (step sys_executable spawn self batch_id brands max_workers)
         (count_moves sys_executable spawn self batch_id brands max_workers sched g)
         g (run_schedule sys_executable spawn self batch_id brands max_workers sched g).
Proof.
  revert g. induction sched as [|i sched IH]; intros g; cbn; [constructor|].
  destruct (pool_step _ _ _ _ _ _ i g) as [g'|] eqn:E; cbn; [|apply IH].
  econstructor; [by econstructor|apply IH].
Qed.

(** X11. The orchestrator repeats nothing within a run: counting the launch
    of a unit together with the wait for its exit as one action, the tasks
    of the pool make, from the submission of the brands to the last return,
    at most two actions per brand and eight per brand and stage. *)
Theorem pool_run_is_bounded w n g :
  nsteps (step sys_executable spawn self batch_id brands max_workers) n
         (pool_init self brands w) g →
  n ≤ length brands * (2 + 8 * length (stages self)).
Proof.
  intros H. apply nsteps_measure in H.
  assert (pool_measure self (pool_init self brands w)
          = length brands * (2 + 8 * length (stages self))) as Hinit.
  { unfold pool_measure, pool_init. cbn [p_pcs].
    induction (length brands) as [|k IH]; csimpl; [done|]. rewrite IH. lia. }
  lia.
Qed.

End PoolShape.

(** ** Closing and reopening *)

Lemma find_resumable_finished mode batch_id cnt t (rows : list BatchRow) :
  (∀ row, row ∈ rows → resumable mode row = true → b_batch_id row = batch_id) →
  List.find (resumable mode) (finish_row batch_id cnt t <$> rows) = None.
Proof.
  induction rows as [|row rows IH]; intros Hall; csimpl; [done|].
  rewrite IH by (intros r Hr; apply Hall; by apply list_elem_of_further).
  unfold finish_row at 1. case_decide as Hid.
  - done.
  - destruct (resumable mode row) eqn:E; [|done].
    exfalso. apply Hid, Hall; [apply list_elem_of_here|done].
Qed.

(** X12. A batch that has been closed is not resumed: when the batch closed
    by [finish_batch] was the only one running in its mode, the next
    [get_or_create_batch] in that mode opens a new batch. *)
Theorem finished_batch_not_resumed now self batch_id w :
  (∀ row, row ∈ pipeline_batches w → resumable (run_mode self) row = true →
          b_batch_id row = batch_id) →
  let w1 := finish_batch self batch_id w in
  let r := get_or_create_batch now self w1 in
  r.1 = strftime (now (S (clock w1)))
  ∧ pipeline_batches r.2
    = pipeline_batches w1
      ++ [mkBatchRow r.1 (run_mode self) "RUNNING" ColDefault ColDefault ColDefault].
Proof.
  intros Honly. cbn zeta.
  rewrite get_or_create_batch_new; [done|].
  unfold finish_batch. cbn [pipeline_batches emit set_batches].
  by apply find_resumable_finished.
Qed.

(** ** The scheduler from end to end *)

Section RunFacts.

Variable sys_executable : string.
Variable spawn : nat → list string → ProcOutcome.
Variable now : nat → DateTime.
Variable upper : string → string.
Variable UPPER : string → string.
Variable self : Orchestrator.

Lemma thread_run_stuck batch_id brand_info n pc w sems :
  thread_step sys_executable spawn self batch_id brand_info pc w sems = None →
  thread_run sys_executable spawn self batch_id brand_info n pc w sems = (pc, w, sems).
Proof. intros H. destruct n; cbn; [done|]. by rewrite H. Qed.

Lemma pool_step_stuck batch_id brands max_workers i g pc brand_info :
  p_pcs g !! i = Some pc → brands !! i = Some brand_info → is_queued pc = false →
  thread_step sys_executable spawn self batch_id brand_info pc (p_world g) (p_sems g) = None →
  pool_step sys_executable spawn self batch_id brands max_workers i g = None.
Proof.
  intros Hi Hb Hq Hstep. unfold pool_step. rewrite Hi, Hb.
  destruct pc; try done; by rewrite Hstep.
Qed.

(** A pool of one task follows its thread. *)
Lemma single_task_schedule batch_id brand_info max_workers n pc w sems :
  is_queued pc = false →
  run_schedule sys_executable spawn self batch_id [brand_info] max_workers
    (replicate n 0) (mkPool w sems [pc])
  = let '(pc', w', sems') :=
      thread_run sys_executable spawn self batch_id brand_info n pc w sems in
    mkPool w' sems' [pc'].
Proof.
  revert pc w sems. induction n as [|n IH]; intros pc w sems Hq; [done|].
  cbn [replicate run_schedule thread_run].
  destruct (thread_step sys_executable spawn self batch_id brand_info pc w sems)
    as [[[pc' w'] sems']|] eqn:E.
  - rewrite (pool_step_thread sys_executable spawn self batch_id [brand_info] max_workers
               0 (mkPool w sems [pc]) pc brand_info pc' w' sems'); try done.
    cbn [from_option id p_pcs]. apply IH.
    by destruct (thread_step_load _ _ _ _ _ _ _ _ _ _ _ E) as (_ & _ & ?).
  - rewrite (pool_step_stuck batch_id [brand_info] max_workers 0 (mkPool w sems [pc])
               pc brand_info); try done.
    cbn [from_option id]. rewrite IH by done. by rewrite thread_run_stuck.
Qed.

Lemma get_or_create_batch_catalogue w :
  mall_brands (get_or_create_batch now self w).2 = mall_brands w.
Proof. unfold get_or_create_batch. by destruct (List.find _ _). Qed.

(** X13. With a single target brand [run] is the sequence of its parts:
    the batch lookup, the catalogue query, the write of [total_brands],
    [process_brand_pipeline] for that brand, and [finish_batch]; any
    schedule that gives the one task enough turns comes to this. *)
Theorem run_single_brand row w :
  List.filter (is_target upper UPPER self) (mall_brands w) = [row] →
  stages self ≠ [] →
  let batch_id := (get_or_create_batch now self w).1 in
  let w3 := set_total_brands batch_id 1
              (get_target_brands upper UPPER self (get_or_create_batch now self w).2).2 in
  ∃ n, ∀ m,
    run sys_executable spawn now upper UPPER self (replicate (n + m) 0) w
    = Some (BatchCompleted,
            finish_batch self batch_id
              (process_brand_pipeline sys_executable spawn self batch_id (cat_info row) w3).2).
Proof.
  intros Hone Hst. cbn zeta.
  destruct (solo_pipeline sys_executable spawn self
              (get_or_create_batch now self w).1 (cat_info row) (stages self)
              (set_total_brands (get_or_create_batch now self w).1 1
                 (get_target_brands upper UPPER self (get_or_create_batch now self w).2).2)
              (stage_locks self)) as [n Hn].
  { intros s Hs. exists 0. by apply stage_locks_lookup. }
  exists (S n). intros m. unfold run.
  pose proof (get_or_create_batch_catalogue w) as Hcat.
  destruct (get_or_create_batch now self w) as [batch_id w1]. cbn [fst snd] in *.
  unfold get_target_brands in *. rewrite Hcat, Hone in *. cbn [fmap list_fmap length fst snd] in *.
  assert (1 `min` length (stages self) = 1) as ->
    by (destruct (stages self); [done|cbn; lia]).
  rewrite decide_False by lia.
  cbn [Nat.add replicate run_schedule].
  assert (pool_step sys_executable spawn self batch_id [cat_info row] 1 0
            (pool_init self [cat_info row]
               (set_total_brands batch_id 1 (emit (EvListBrands 1) w1)))
          = Some (mkPool (set_total_brands batch_id 1 (emit (EvListBrands 1) w1))
                         (stage_locks self) [AtLoop (stages self)])) as -> by done.
  cbn [from_option id]. rewrite single_task_schedule by done.
  rewrite Hn. by cbn.
Qed.

End RunFacts.

(** ** Records that say ['RUNNING'] *)

Section RunningRecords.

Variable sys_executable : string.
Variable spawn : nat → list string → ProcOutcome.
Variable self : Orchestrator.
Variable batch_id : string.

Lemma update_other_stage brand_info stage status msg w s :
  s ≠ stage →
  stored_status
    (pipeline_control
       (update_stage_status self batch_id (mall_name brand_info)
          (mall_brand_name_en brand_info) stage status msg w))
    (key_of batch_id brand_info s)
  = stored_status (pipeline_control w) (key_of batch_id brand_info s).
Proof.
  intros Hne. unfold stored_status, update_stage_status, key_of. cbn.
  rewrite lookup_insert_ne; [done|]. intros [=]. by apply Hne.
Qed.

(** The records of an entity say ['RUNNING'] only at the stage whose units
    its thread is launching. *)
Lemma thread_step_running brand_info pc w sems pc' w' sems' :
  (∀ s, stored_status (pipeline_control w) (key_of batch_id brand_info s) = "RUNNING" →
        works_on s pc = true) →
  thread_step sys_executable spawn self batch_id brand_info pc w sems
  = Some (pc', w', sems') →
  ∀ s, stored_status (pipeline_control w') (key_of batch_id brand_info s) = "RUNNING" →
       works_on s pc' = true.
Proof.
  intros Hinv Hstep s.
  assert (∀ stage status msg,
            status ≠ "RUNNING" →
            (∀ s0, works_on s0 pc = true → s0 = stage) →
            stored_status
              (pipeline_control
                 (update_stage_status self batch_id (mall_name brand_info)
                    (mall_brand_name_en brand_info) stage status msg w))
              (key_of batch_id brand_info s) ≠ "RUNNING") as Hend.
  { intros stage status msg Hst Hat.
    destruct (decide (s = stage)) as [->|Hne].
    - unfold key_of. by rewrite update_stage_status_status.
    - rewrite update_other_stage by done. intros Hr. by apply Hne, Hat, Hinv. }
  destruct pc as [|[|stage rest]|stage rest|stage rest|stage rest
                  |stage [|cmd cmds] rest|stage msg rest|stage ok rest|b];
    cbn in Hstep; try done.
  - injection Hstep as <- <- <-. intros Hr. by pose proof (Hinv s Hr).
  - destruct (sems !! stage) as [[|n]|]; try done.
    injection Hstep as <- <- <-. intros Hr. by pose proof (Hinv s Hr).
  - case_decide; [|destruct (partial_skip self stage)];
      injection Hstep as <- <- <-; intros Hr; by pose proof (Hinv s Hr).
  - injection Hstep as <- <- <-. intros Hr. exfalso. revert Hr. by apply Hend.
  - injection Hstep as <- <- <-.
    destruct (decide (s = stage)) as [->|Hne];
      [intros _; cbn; by rewrite bool_decide_eq_true_2|].
    rewrite update_other_stage by done. intros Hr. by pose proof (Hinv s Hr).
  - injection Hstep as <- <- <-. intros Hr. exfalso. revert Hr. apply Hend; [done|].
    intros s0 Hs0. cbn in Hs0. by apply bool_decide_eq_true in Hs0.
  - destruct (run_command_spec spawn (mall_name brand_info)
                (mall_brand_name_en brand_info) stage cmd w) as [Hw _].
    destruct (run_command _ _ _ _ _ _) as [[m|] w1]; cbn in Hw; subst w1;
      injection Hstep as <- <- <-; intros Hr; exact (Hinv s Hr).
  - injection Hstep as <- <- <-. intros Hr. exfalso. revert Hr. apply Hend; [done|].
    intros s0 Hs0. cbn in Hs0. by apply bool_decide_eq_true in Hs0.
  - injection Hstep as <- <- <-. intros Hr. by pose proof (Hinv s Hr).
Qed.

Variable brands : list BrandInfo.
Variable max_workers : nat.

(** Without exceptions the pool goes through the same states. *)
Lemma reachable_xreachable w g :
  reachable sys_executable spawn self batch_id brands max_workers w g →
  xreachable sys_executable spawn self batch_id brands max_workers w (mkXPool g ∅).
Proof.
  unfold reachable, xreachable. revert g. apply rtc_ind_r; [apply rtc_refl|].
  intros g1 g2 _ Hstep IH. eapply rtc_r; [exact IH|].
  destruct Hstep as [i g1 g2 Hstep].
  by apply (xstep_task _ _ _ _ _ _ i (mkXPool g1 ∅)).
Qed.

(** X15. Exceptions included: in a run whose brands are pairwise distinct
    and that starts with none of their records ['RUNNING'], a record says
    ['RUNNING'] only while the task of its entity is launching the units of
    that very stage or is about to record their failure, or after an
    exception has ended that task; so a task that has returned, with [True]
    or [False], has left none of its records ['RUNNING'], whatever happened
    to the other tasks. *)
Theorem running_record_has_running_task w g :
  NoDup (entity_key <$> brands) →
  (∀ b s, b ∈ brands →
          stored_status (pipeline_control w) (key_of batch_id b s) ≠ "RUNNING") →
  xreachable sys_executable spawn self batch_id brands max_workers w g →
  (∀ i b s,
     brands !! i = Some b →
     stored_status (pipeline_control (p_world (x_pool g))) (key_of batch_id b s) = "RUNNING" →
     i ∈ x_raised g
     ∨ ∃ pc, p_pcs (x_pool g) !! i = Some pc ∧ works_on s pc = true)
  ∧ (∀ i b s result,
       brands !! i = Some b → i ∉ x_raised g →
       p_pcs (x_pool g) !! i = Some (Finished result) →
       stored_status (pipeline_control (p_world (x_pool g))) (key_of batch_id b s)
       ≠ "RUNNING").
Proof.
  intros Hdup Hfresh Hg.
  assert (length (p_pcs (x_pool g)) = length brands
          ∧ (∀ i, i ∈ x_raised g → p_pcs (x_pool g) !! i = Some (Finished false))
          ∧ ∀ i b s pc,
              brands !! i = Some b → p_pcs (x_pool g) !! i = Some pc →
              stored_status (pipeline_control (p_world (x_pool g))) (key_of batch_id b s)
              = "RUNNING" →
              i ∈ x_raised g ∨ works_on s pc = true) as (Hlen & Hover & Hinv).
  { pattern g. revert g Hg. apply rtc_ind_r.
    2: intros g1 g2 Hrtc Hstep (IHlen & IHover & IH).
    - cbn. split; [by rewrite length_replicate|]. split; [set_solver|].
      intros i b s pc Hb _ Hr. exfalso. revert Hr. apply Hfresh.
      by eapply list_elem_of_lookup_2.
    - destruct Hstep as [i g1 p' Hstep|i g1 pc0 s0 Hi Hraise]; cbn [x_pool x_raised].
      + apply pool_step_inv in Hstep as (pc0 & Hi & Hcase).
        assert (i ∉ x_raised g1) as Hlive.
        { intros Hin. rewrite (IHover i Hin) in Hi. injection Hi as <-.
          destruct Hcase as [[? _]|(b0 & pc' & w' & sems' & _ & Hthread & _)]; done. }
        destruct Hcase as [[-> ->]|H].
        * cbn [p_pcs p_world]. split; [by rewrite length_insert|]. split.
          -- intros j Hj. rewrite list_lookup_insert_ne; [by apply IHover|].
             intros <-. done.
          -- intros j b s pc Hb Hj Hr.
             destruct (decide (i = j)) as [<-|Hne].
             ++ destruct (IH i b s Queued Hb Hi Hr); [by left|done].
             ++ rewrite list_lookup_insert_ne in Hj by done. by eapply IH.
        * destruct H as (b0 & pc' & w' & sems' & Hb0 & Hthread & ->).
          cbn [p_pcs p_world]. split; [by rewrite length_insert|]. split.
          -- intros j Hj. rewrite list_lookup_insert_ne; [by apply IHover|].
             intros <-. done.
          -- intros j b s pc Hb Hj Hr.
             destruct (decide (i = j)) as [<-|Hne].
             ++ rewrite list_lookup_insert_eq in Hj by (by eapply lookup_lt_Some).
                injection Hj as <-. assert (b0 = b) as -> by congruence.
                right. eapply thread_step_running; [|exact Hthread|exact Hr].
                intros s1 Hs1. by destruct (IH i b s1 pc0 Hb Hi Hs1).
             ++ rewrite list_lookup_insert_ne in Hj by done.
                eapply (IH j b s pc Hb Hj).
                assert (pipeline_control w' !! key_of batch_id b s
                        = pipeline_control (p_world (x_pool g1)) !! key_of batch_id b s)
                  as Hframe.
                { eapply thread_step_frame; [exact Hthread|].
                  intros s1 [= Hm Hn]. apply Hne.
                  eapply (NoDup_lookup _ i j (entity_key b)); [exact Hdup| |].
                  - rewrite list_lookup_fmap, Hb0. cbn. unfold entity_key. by rewrite Hm, Hn.
                  - by rewrite list_lookup_fmap, Hb. }
                unfold stored_status in *. by rewrite <- Hframe.
      + cbn [p_pcs p_world]. split; [by rewrite length_insert|]. split.
        * intros j [Hj|Hj]%elem_of_union.
          -- apply elem_of_singleton in Hj as ->.
             apply list_lookup_insert_eq. by eapply lookup_lt_Some.
          -- destruct (decide (i = j)) as [<-|Hne].
             ++ apply list_lookup_insert_eq. by eapply lookup_lt_Some.
             ++ rewrite list_lookup_insert_ne by done. by apply IHover.
        * intros j b s pc Hb Hj Hr.
          destruct (decide (i = j)) as [<-|Hne]; [left; set_solver|].
          rewrite list_lookup_insert_ne in Hj by done.
          destruct (IH j b s pc Hb Hj Hr); [left; set_solver|by right]. }
  split.
  - intros i b s Hb Hr.
    destruct (lookup_lt_is_Some_2 (p_pcs (x_pool g)) i) as [pc Hpc].
    { rewrite Hlen. by eapply lookup_lt_Some. }
    destruct (Hinv i b s pc Hb Hpc Hr); [by left|right; by exists pc].
  - intros i b s result Hb Hlive Hpc Hr.
    by destruct (Hinv i b s _ Hb Hpc Hr).
Qed.

End RunningRecords.

(** ** What a pipeline launches *)

Section Launches.

Variable sys_executable : string.
Variable spawn : nat → list string → ProcOutcome.
Variable self : Orchestrator.
Variable batch_id : string.
Variable brand_info : BrandInfo.

Lemma commands_for_shape stage target cmd :
  cmd ∈ commands_for sys_executable stage target →
  brand_command sys_executable target cmd.
Proof.
  unfold commands_for, brand_command. intros Hin.
  repeat case_decide;
    repeat (apply elem_of_cons in Hin as [->|Hin]; [by eexists|]);
    by apply elem_of_nil in Hin.
Qed.

(** X16. Every unit a pipeline launches is the interpreter with one script,
    [--brand] and one name: the catalogue name of the brand at COLLECT and
    CONVERT, and at the later stages its marketplace name, or again the
    catalogue name when the marketplace name is missing or empty. *)
Theorem launched_units_name_the_brand w :
  Forall (λ e, match e with
               | EvExec _ _ stage cmd =>
                   brand_command sys_executable
                     (if bool_decide (stage ∈ ["COLLECT"; "CONVERT"])
                      then mall_brand_name_en brand_info
                      else match buyma_brand_name brand_info with
                           | Some name => if decide (name = "")
                                          then mall_brand_name_en brand_info else name
                           | None => mall_brand_name_en brand_info
                           end)
                     cmd
               | _ => True
               end)
         (new_events w
            (process_brand_pipeline sys_executable spawn self batch_id brand_info w).2).
Proof.
  pose proof (pipeline_loop_evolves sys_executable spawn self batch_id brand_info
                (stages self) w) as Hev.
  apply evolves_new_events in Hev.
  eapply Forall_impl; [exact Hev|]. cbn.
  intros e (s & _ & Ha). destruct e; try done.
  cbn in Ha. destruct Ha as (_ & _ & -> & Hcmd).
  apply commands_for_shape in Hcmd.
  unfold target_brand_name, buyma_brand, truthy in Hcmd.
  destruct (decide (s ∈ ["COLLECT"; "CONVERT"])) as [Hin|Hout].
  - by rewrite bool_decide_eq_true_2.
  - rewrite bool_decide_eq_false_2 by done.
    destruct (buyma_brand_name brand_info) as [name|]; [|done].
    by destruct (decide (name = "")).
Qed.

Lemma process_stage_partial stage w :
  run_mode self = "PARTIAL" → stage ∈ ["CONVERT"; "IMAGE"] →
  evolves (leaves_exec brand_info stage) (λ _, True) w
          (process_stage sys_executable spawn self batch_id brand_info stage w).2.
Proof.
  intros Hmode Hheavy.
  unfold process_stage, stage_body, get_stage_status. cbn zeta.
  assert (partial_skip self stage = true) as ->
    by (unfold partial_skip; by rewrite !bool_decide_eq_true_2).
  case_decide; cbn [snd].
  - eapply evolves_trans; [|apply evolves_emit; reflexivity].
    eapply evolves_trans; [|apply evolves_emit; reflexivity].
    apply evolves_emit. reflexivity.
  - eapply evolves_trans; [|apply evolves_emit; reflexivity].
    eapply evolves_trans; [|apply evolves_update; [reflexivity|done]].
    eapply evolves_trans; [|apply evolves_emit; reflexivity].
    apply evolves_emit. reflexivity.
Qed.

(** X17. In PARTIAL mode a pipeline launches no unit of CONVERT and no unit
    of IMAGE, whatever the store holds. *)
Theorem partial_pipeline_launches_no_heavy_unit stage w :
  run_mode self = "PARTIAL" → stage ∈ ["CONVERT"; "IMAGE"] →
  Forall (λ e, is_exec_of brand_info stage e = false)
         (new_events w
            (process_brand_pipeline sys_executable spawn self batch_id brand_info w).2).
Proof.
  intros Hmode Hheavy. unfold process_brand_pipeline.
  apply (evolves_new_events _ (λ _, True)).
  generalize (stages self). intros todo. revert w.
  induction todo as [|stage' rest IH]; intros w; cbn [pipeline_loop].
  - apply evolves_refl.
  - assert (evolves (leaves_exec brand_info stage) (λ _, True) w
              (process_stage sys_executable spawn self batch_id brand_info stage' w).2)
      as Hturn.
    { destruct (decide (stage' = stage)) as [->|Hne].
      - by apply process_stage_partial.
      - eapply evolves_weaken; [| |apply process_stage_evolves]; [|done].
        intros e Ha. by destruct (about_other_stage sys_executable brand_info
                                    stage stage' e Hne Ha). }
    destruct (process_stage sys_executable spawn self batch_id brand_info stage' w)
      as [[|] w1]; cbn [snd] in *; [|done].
    eapply evolves_trans; [exact Hturn|apply IH].
Qed.

(** X18. A brand whose pipeline returned [True] is counted by
    [finish_batch]: with the final stage in the stage list, its name is among
    the names [finish_batch] counts in the store the pipeline left. *)
Theorem successful_pipeline_is_counted w :
  final_stage self ∈ stages self →
  let r := process_brand_pipeline sys_executable spawn self batch_id brand_info w in
  r.1 = true →
  mall_brand_name_en brand_info
  ∈ done_brands (pipeline_control r.2) batch_id (final_stage self).
Proof.
  intros Hfin. cbn zeta. intros Hok.
  pose proof (pipeline_loop_true sys_executable spawn self batch_id brand_info
                (stages self) w Hok (final_stage self) Hfin) as Hdone.
  apply done_brands_spec. unfold stored_status, key_of in Hdone.
  unfold process_brand_pipeline.
  destruct (pipeline_control _ !! _) as [row|] eqn:E; [|done].
  by exists (mall_name brand_info), row.
Qed.

End Launches.

(** ** Sample runs of the further properties *)

(** The exclusion list names AMI in lower case: NIKE is a target, AMI is
    not. *)
Lemma targets_respect_filters_witness :
  init ascii_upper "FULL" None None (Some ["ami"]) None = inr orch_excluding_ami
  ∧ (get_target_brands ascii_upper ascii_upper orch_excluding_ami world0).1 = [brand_nike]
  ∧ ∃ row, row ∈ mall_brands world0 ∧ cat_info row = brand_nike.
Proof.
  split; [reflexivity|]. split; [vm_compute; reflexivity|].
  destruct (proj1 (targets_respect_filters ascii_upper ascii_upper "FULL" None None
                     (Some ["ami"]) None orch_excluding_ami world0 brand_nike eq_refl))
    as (row & Hin & Hrow & _).
  - vm_compute. apply list_elem_of_here.
  - by exists row.
Defined.

(** The converter of AMI exits with status 1: the turn returns [False] and
    leaves the record at ['ERROR']. *)
Lemma stage_turn_ends_done_or_error_witness :
  let r := process_stage "python" spawn_ami_convert_fails orch_full "B1" brand_ami
             "CONVERT" world0 in
  r.1 = false
  ∧ stored_status (pipeline_control r.2) (key_of "B1" brand_ami "CONVERT") = "ERROR".
Proof.
  cbn zeta. split; [vm_compute; reflexivity|].
  apply (proj1 (stage_turn_ends_done_or_error "python" spawn_ami_convert_fails orch_full
                  "B1" brand_ami "CONVERT" world0 false _ ltac:(vm_compute; reflexivity))).
Defined.

(** AMI ran through all five stages; a second pipeline only reads. *)
Lemma completed_pipeline_rerun_is_idle_witness :
  pipeline_control
    (process_brand_pipeline "python" spawn_ok orch_full "B1" brand_ami
       (process_brand_pipeline "python" spawn_ok orch_full "B1" brand_ami world0).2).2
  = pipeline_control
      (process_brand_pipeline "python" spawn_ok orch_full "B1" brand_ami world0).2.
Proof.
  apply (completed_pipeline_rerun_is_idle "python" spawn_ok orch_full "B1" brand_ami world0).
  vm_compute. reflexivity.
Defined.

(** SHIP is not a stage. *)
Lemma unknown_stage_runs_nothing_witness :
  (execute_worker "python" spawn_ok orch_full "B1" "okmall" "AMI" "SHIP" "AMI" world0).1
  = true.
Proof.
  rewrite (unknown_stage_runs_nothing "python" spawn_ok orch_full "B1"
             "okmall" "AMI" "SHIP" "AMI" world0); [done|].
  intros Hin. repeat (apply elem_of_cons in Hin as [Hin|Hin]; [discriminate Hin|]).
  by apply elem_of_nil in Hin.
Defined.

(** Two readings of the sample clock, one second apart. *)
Lemma batch_id_identifies_second_witness :
  strftime (wall 1) = "20260128_093001" ∧ strftime (wall 1) ≠ strftime (wall 2).
Proof.
  split; [reflexivity|]. intros Heq.
  assert (valid_datetime (wall 1)) as H1 by (vm_compute; lia).
  assert (valid_datetime (wall 2)) as H2 by (vm_compute; lia).
  pose proof (proj2 (batch_id_identifies_second (wall 1) (wall 2) H1 H2) Heq) as Hd.
  discriminate Hd.
Defined.

(** AMI is in CONVERT while NIKE is in COLLECT: two blocks are in use, of
    five stages and for two brands. *)
Lemma blocks_in_use_bounded_witness :
  let g := run_schedule "python" spawn_ok orch_full "B1" [brand_ami; brand_nike] 2
             [0; 0; 0; 0; 0; 0; 0; 0; 1; 1]
             (pool_init orch_full [brand_ami; brand_nike] world0) in
  blocks_in_use (p_pcs g) = 2 ∧ blocks_in_use (p_pcs g) ≤ 2.
Proof.
  cbn zeta. split; [vm_compute; reflexivity|].
  apply (blocks_in_use_bounded "python" spawn_ok orch_full "B1" [brand_ami; brand_nike] 2
           world0).
  apply run_schedule_reachable, rtc_refl.
Defined.

(** AMI has taken the semaphore of COLLECT and NIKE waits for it: NIKE
    cannot move, AMI holds the semaphore and can. *)
Lemma pool_never_deadlocks_witness :
  let g := run_schedule "python" spawn_ok orch_full "B1" [brand_ami; brand_nike] 2
             [0; 1; 0] (pool_init orch_full [brand_ami; brand_nike] world0) in
  pool_step "python" spawn_ok orch_full "B1" [brand_ami; brand_nike] 2 1 g = None
  ∧ ∃ k pc, k ≠ 1 ∧ p_pcs g !! k = Some pc ∧ holds "COLLECT" pc = true
            ∧ is_Some (pool_step "python" spawn_ok orch_full "B1"
                         [brand_ami; brand_nike] 2 k g).
Proof.
  cbn zeta.
  assert (pool_step "python" spawn_ok orch_full "B1" [brand_ami; brand_nike] 2 1
            (run_schedule "python" spawn_ok orch_full "B1" [brand_ami; brand_nike] 2
               [0; 1; 0] (pool_init orch_full [brand_ami; brand_nike] world0)) = None)
    as Hstuck by (vm_compute; reflexivity).
  split; [exact Hstuck|].
  apply (proj1 (pool_never_deadlocks "python" spawn_ok orch_full "B1"
                  [brand_ami; brand_nike] 2 world0 _
                  (run_schedule_reachable "python" spawn_ok orch_full "B1"
                     [brand_ami; brand_nike] 2 [0; 1; 0] world0 _ (rtc_refl _ _)))
           1 "COLLECT" ["CONVERT"; "IMAGE"; "PRICE"; "REGISTER"]).
  - vm_compute. reflexivity.
  - exact Hstuck.
Defined.

(** A whole run of two brands through five stages, every unit succeeding:
    sixty-six actions. *)
Lemma pool_run_is_bounded_witness :
  let sched := replicate 40 0 ++ replicate 40 1 in
  let g0 := pool_init orch_full [brand_ami; brand_nike] world0 in
  all_finished (run_schedule "python" spawn_ok orch_full "B1" [brand_ami; brand_nike] 2
                  sched g0) = true
  ∧ count_moves "python" spawn_ok orch_full "B1" [brand_ami; brand_nike] 2 sched g0 = 66
  ∧ count_moves "python" spawn_ok orch_full "B1" [brand_ami; brand_nike] 2 sched g0
    ≤ 2 * (2 + 8 * 5).
Proof.
  cbn zeta. split; [vm_compute; reflexivity|]. split; [vm_compute; reflexivity|].
  apply (pool_run_is_bounded "python" spawn_ok orch_full "B1" [brand_ami; brand_nike] 2
           world0 _ _
           (run_schedule_nsteps "python" spawn_ok orch_full "B1" [brand_ami; brand_nike] 2
              (replicate 40 0 ++ replicate 40 1)
              (pool_init orch_full [brand_ami; brand_nike] world0))).
Defined.

(** Batch [B1] is the only running batch; once closed, the next lookup opens
    a batch of its own. *)
Lemma finished_batch_not_resumed_witness :
  (get_or_create_batch wall orch_full (finish_batch orch_full "B1" world_retry)).1
  = "20260128_093009".
Proof.
  apply (finished_batch_not_resumed wall orch_full "B1" world_retry).
  intros row Hrow _. apply list_elem_of_singleton in Hrow. by subst row.
Defined.

(** The brand filter leaves AMI alone in the target list. *)
Lemma run_single_brand_witness :
  ∃ n, run "python" spawn_ok wall ascii_upper ascii_upper orch_only_ami
         (replicate (n + 0) 0) world0
       = Some (BatchCompleted,
               finish_batch orch_only_ami "20260128_093001"
                 (process_brand_pipeline "python" spawn_ok orch_only_ami
                    "20260128_093001" brand_ami
                    (set_total_brands "20260128_093001" 1
                       (get_target_brands ascii_upper ascii_upper orch_only_ami
                          (get_or_create_batch wall orch_only_ami world0).2).2)).2).
Proof.
  destruct (run_single_brand "python" spawn_ok wall ascii_upper ascii_upper orch_only_ami
              (mkCatalogRow brand_ami 1) world0) as [n Hn].
  - vm_compute. reflexivity.
  - discriminate.
  - exists n. apply Hn.
Defined.

(** AMI has marked its COLLECT record and an exception ends its task before
    the collector is launched: the record still says ['RUNNING'], and AMI is
    among the tasks an exception has ended. *)
Lemma running_record_has_running_task_witness :
  let g0 := run_schedule "python" spawn_ok orch_full "B1" [brand_ami; brand_nike] 2
              [0; 0; 0; 0] (pool_init orch_full [brand_ami; brand_nike] world0) in
  let g1 := mkXPool (mkPool (emit (EvRelease "COLLECT") (p_world g0))
                            (alter S "COLLECT" (p_sems g0))
                            (<[0 := Finished false]> (p_pcs g0)))
                    ({[0]} ∪ ∅) in
  stored_status (pipeline_control (p_world (x_pool g1))) (key_of "B1" brand_ami "COLLECT")
  = "RUNNING"
  ∧ (0 ∈ x_raised g1
     ∨ ∃ pc, p_pcs (x_pool g1) !! 0 = Some pc ∧ works_on "COLLECT" pc = true).
Proof.
  cbn zeta.
  assert (stored_status
            (pipeline_control
               (emit (EvRelease "COLLECT")
                  (p_world
                     (run_schedule "python" spawn_ok orch_full "B1" [brand_ami; brand_nike] 2
                        [0; 0; 0; 0] (pool_init orch_full [brand_ami; brand_nike] world0)))))
            (key_of "B1" brand_ami "COLLECT") = "RUNNING") as Hr
    by (vm_compute; reflexivity).
  split; [exact Hr|].
  apply (proj1 (running_record_has_running_task "python" spawn_ok orch_full "B1"
                  [brand_ami; brand_nike] 2 world0 _
                  ltac:(by apply (bool_decide_unpack _))
                  ltac:(intros b s _; vm_compute; discriminate)
                  (rtc_r _ _ _
                     (reachable_xreachable "python" spawn_ok orch_full "B1"
                        [brand_ami; brand_nike] 2 world0 _
                        (run_schedule_reachable "python" spawn_ok orch_full "B1"
                           [brand_ami; brand_nike] 2 [0; 0; 0; 0] world0 _ (rtc_refl _ _)))
                     (xstep_raise "python" spawn_ok orch_full "B1" [brand_ami; brand_nike] 2
                        0
                        (mkXPool
                           (run_schedule "python" spawn_ok orch_full "B1"
                              [brand_ami; brand_nike] 2 [0; 0; 0; 0]
                              (pool_init orch_full [brand_ami; brand_nike] world0)) ∅)
                        (Cmds "COLLECT"
                           [["python"; "okmall_all_brands_collector.py"; "--brand"; "AMI"]]
                           ["CONVERT"; "IMAGE"; "PRICE"; "REGISTER"])
                        "COLLECT" ltac:(vm_compute; reflexivity) eq_refl)))
           0 brand_ami "COLLECT" eq_refl Hr).
Defined.

(** A PARTIAL pipeline of AMI launches no converter. *)
Lemma partial_pipeline_launches_no_heavy_unit_witness :
  Forall (λ e, is_exec_of brand_ami "CONVERT" e = false)
         (new_events world0
            (process_brand_pipeline "python" spawn_ok orch_partial "B1" brand_ami world0).2).
Proof.
  apply (partial_pipeline_launches_no_heavy_unit "python" spawn_ok orch_partial "B1"
           brand_ami "CONVERT" world0).
  - reflexivity.
  - apply list_elem_of_here.
Defined.

(** AMI ran through all five stages of a FULL run. *)
Lemma successful_pipeline_is_counted_witness :
  "AMI" ∈ done_brands
            (pipeline_control
               (process_brand_pipeline "python" spawn_ok orch_full "B1" brand_ami world0).2)
            "B1" "REGISTER".
Proof.
  apply (successful_pipeline_is_counted "python" spawn_ok orch_full "B1" brand_ami world0).
  - apply list_elem_of_further, list_elem_of_further, list_elem_of_further,
      list_elem_of_further, list_elem_of_here.
  - vm_compute. reflexivity.
Defined.
